(** * Documentation view-model assembly of package.gren-lang.org

    A shallow embedding of [src/routes/package.js]: latest-version
    resolution, normalisation of the exposed-module index, reconstruction
    of a module's documentation body from its doc comment, and the three
    route handlers that assemble the responses.

    JavaScript strings are modelled as [string], read as the UTF-8 bytes
    of well-formed text; numbers that the code only ever uses as integers
    are modelled as [Z] or [N]. *)

From Stdlib Require Import String Ascii List Bool ZArith NArith Lia.
From Stdlib Require Import Permutation Sorted OrderedTypeEx.
Import ListNotations.

Open Scope string_scope.
Open Scope list_scope.

(* ================================================================== *)
(** ** Completions: values and thrown errors *)

Inductive JsError : Type :=
| TypeError (msg : string)
| ReferenceError (msg : string)
| SyntaxError (msg : string).

Inductive Completion (A : Type) : Type :=
| Normal (a : A)
| Throw (e : JsError).

Arguments Normal {A} a.
Arguments Throw {A} e.

Definition bind {A B : Type} (c : Completion A) (k : A -> Completion B)
  : Completion B :=
  match c with
  | Normal a => k a
  | Throw e => Throw e
  end.

Notation "x <- c ;; k" := (bind c (fun x => k))
  (at level 61, c at next level, right associativity).

(* ================================================================== *)
(** ** The parts of the JavaScript runtime the routes rely on *)

Module JS.

(** [WhiteSpace] and [LineTerminator] code points, as [String.prototype.trim]
    and the regular-expression class [\s] recognise them.  [ws_width s] is
    the number of bytes the white-space character at the head of [s]
    occupies in UTF-8, and [0] when [s] does not start with one. *)
Definition ascii_ws (x : N) : bool :=
  ((9 <=? x) && (x <=? 13) || (x =? 32))%N.

Definition wide_ws (x y z : N) : bool :=
  ((x =? 225) && (y =? 154) && (z =? 128)            (* U+1680 *)
   || (x =? 226) && (y =? 128) && (128 <=? z) && (z <=? 138)  (* U+2000-200A *)
   || (x =? 226) && (y =? 128) && ((z =? 168) || (z =? 169) || (z =? 175))
                                                     (* U+2028 U+2029 U+202F *)
   || (x =? 226) && (y =? 129) && (z =? 159)         (* U+205F *)
   || (x =? 227) && (y =? 128) && (z =? 128)         (* U+3000 *)
   || (x =? 239) && (y =? 187) && (z =? 191))%N.     (* U+FEFF *)

Definition ws_width (s : string) : nat :=
  match s with
  | String a r =>
      if ascii_ws (N_of_ascii a) then 1
      else match r with
           | String b r2 =>
               if ((N_of_ascii a =? 194) && (N_of_ascii b =? 160))%N then 2
               else match r2 with
                    | String c _ =>
                        if wide_ws (N_of_ascii a) (N_of_ascii b) (N_of_ascii c)
                        then 3 else 0
                    | EmptyString => 0
                    end
           | EmptyString => 0
           end
  | EmptyString => 0
  end.

(** [String.prototype.slice(n)] for [0 <= n]. *)
Fixpoint slice (n : nat) (s : string) : string :=
  match n, s with
  | S k, String _ r => slice k r
  | _, _ => s
  end.

(** [String.prototype.trimLeft]. *)
Fixpoint trimLeft (s : string) : string :=
  match s with
  | EmptyString => EmptyString
  | String _ r =>
      match ws_width s with
      | 0 => s
      | 1 => trimLeft r
      | 2 => match r with String _ r2 => trimLeft r2 | _ => s end
      | _ => match r with String _ (String _ r3) => trimLeft r3 | _ => s end
      end
  end.

(** [all_ws s]: [s] consists of white space only. *)
Fixpoint all_ws (s : string) : bool :=
  match s with
  | EmptyString => true
  | String _ r =>
      match ws_width s with
      | 0 => false
      | 1 => all_ws r
      | 2 => match r with String _ r2 => all_ws r2 | _ => false end
      | _ => match r with String _ (String _ r3) => all_ws r3 | _ => false end
      end
  end.

Fixpoint trimRight (s : string) : string :=
  match s with
  | EmptyString => EmptyString
  | String a r => if all_ws s then EmptyString else String a (trimRight r)
  end.

(** [String.prototype.trim]. *)
Definition trim (s : string) : string := trimRight (trimLeft s).

(** [s.split(sep)] for a non-empty string separator: the pieces between
    the successive, non-overlapping occurrences of [sep], scanning from the
    left.  [skip] counts the bytes of a matched separator still to pass. *)
Fixpoint split_go (sep : string) (skip : nat) (acc s : string)
  : list string :=
  match s with
  | EmptyString => [acc]
  | String a r =>
      match skip with
      | S k => split_go sep k acc r
      | 0 =>
          if prefix sep s
          then acc :: split_go sep (String.length sep - 1) EmptyString r
          else split_go sep 0 (acc ++ String a EmptyString) r
      end
  end.

Definition split (sep s : string) : list string :=
  split_go sep 0 EmptyString s.

(** [s.split(/\s+/)]: the pieces between maximal runs of white space. *)
Fixpoint split_ws_go (skip : nat) (inws : bool) (acc s : string)
  : list string :=
  match s with
  | EmptyString => [acc]
  | String a r =>
      match skip with
      | S k => split_ws_go k inws acc r
      | 0 =>
          match ws_width s with
          | 0 => split_ws_go 0 false (acc ++ String a EmptyString) r
          | S k =>
              if inws then split_ws_go k true acc r
              else acc :: split_ws_go k true EmptyString r
          end
      end
  end.

Definition split_ws (s : string) : list string :=
  split_ws_go 0 false EmptyString s.

(** [encodeURIComponent]: every byte of the UTF-8 form that is not an
    unreserved mark is replaced by its [%XX] escape. *)
Definition unreserved (c : ascii) : bool :=
  let x := N_of_ascii c in
  ((65 <=? x) && (x <=? 90) || (97 <=? x) && (x <=? 122)
   || (48 <=? x) && (x <=? 57)
   || (x =? 45) || (x =? 95) || (x =? 46) || (x =? 33) || (x =? 126)
   || (x =? 42) || (x =? 39) || (x =? 40) || (x =? 41))%N.

Definition hex_digit (n : N) : ascii :=
  ascii_of_N (if (n <? 10)%N then 48 + n else 55 + n).

Definition percent_escape (c : ascii) : string :=
  let x := N_of_ascii c in
  String "%" (String (hex_digit (x / 16)) (String (hex_digit (x mod 16)) EmptyString)).

Fixpoint encodeURIComponent (s : string) : string :=
  match s with
  | EmptyString => EmptyString
  | String c r =>
      (if unreserved c then String c EmptyString else percent_escape c)
        ++ encodeURIComponent r
  end.

(** Decimal digits, and the number a string of digits denotes. *)
Definition is_digit (c : ascii) : bool :=
  let x := N_of_ascii c in ((48 <=? x) && (x <=? 57))%N.

Fixpoint all_chars (p : ascii -> bool) (s : string) : bool :=
  match s with
  | EmptyString => true
  | String c r => p c && all_chars p r
  end.

Fixpoint to_number_from (acc : N) (s : string) : N :=
  match s with
  | EmptyString => acc
  | String c r => to_number_from (10 * acc + (N_of_ascii c - 48)) r
  end.

Definition to_number (s : string) : N := to_number_from 0 s.

(** A number is a double.  The doubles met here are naturals: [to_double n]
    is the double nearest to the natural [n], ties going to the even
    significand (53 bits); up to 2^53 it is [n] itself.  (Past 20 digits the
    language lets an engine round a little differently; the value is beyond
    2^53 either way.  No text of 256 digits reaches the largest double.) *)
Definition to_double (n : N) : N :=
  if (n <? 2 ^ 53)%N then n
  else
    let k := (N.log2 n - 52)%N in
    let q := (n / 2 ^ k)%N in
    let r := (n mod 2 ^ k)%N in
    let half := (2 ^ (k - 1))%N in
    let q' := if (r <? half)%N then q
              else if (half <? r)%N then (q + 1)%N
              else if N.even q then q else (q + 1)%N in
    (q' * 2 ^ k)%N.

(** [+s] for a string of decimal digits. *)
Definition ToNumber (s : string) : N := to_double (to_number s).

(** [Array.prototype.find]. *)
Fixpoint find {A : Type} (p : A -> bool) (l : list A) : option A :=
  match l with
  | [] => None
  | x :: r => if p x then Some x else find p r
  end.

(** [Array.prototype.sort(comparefn)].  Each element in turn is placed into
    the sorted prefix before the first member it must precede
    ([comparefn(x, y) < 0]), the way an insertion sort of a short array
    proceeds; an exception thrown by [comparefn] ends the sort.  The order
    of the comparisons is the engine's own: with several throwing pairs, which
    error surfaces may differ.  For a [comparefn] that is consistent on the
    elements the result is the stable sorted order whatever the engine; for
    one that is not, the language leaves the order to the engine, and the
    order given here is only one such order. *)
Section Sort.
Context {A : Type} (comparefn : A -> A -> Completion Z).

Fixpoint sort_insert (x : A) (l : list A) : Completion (list A) :=
  match l with
  | [] => Normal [x]
  | y :: r =>
      c <- comparefn x y ;;
      if (c <? 0)%Z then Normal (x :: y :: r)
      else (r' <- sort_insert x r ;; Normal (y :: r'))
  end.

Fixpoint sort_from (sorted : list A) (l : list A) : Completion (list A) :=
  match l with
  | [] => Normal sorted
  | x :: r => s' <- sort_insert x sorted ;; sort_from s' r
  end.

Definition sort (l : list A) : Completion (list A) := sort_from [] l.
End Sort.

(** Objects.  An object is the list of its own properties in the order
    [Object.entries] reports them: integer-index keys first, ascending, then
    the other keys in the order of their creation. *)
Definition Obj (V : Type) : Type := list (string * V).

(** The array index a canonical numeric key denotes. *)
Definition array_index (k : string) : option N :=
  match k with
  | EmptyString => None
  | String "0" EmptyString => Some 0%N
  | String "0" _ => None
  | String _ _ =>
      if all_chars is_digit k && (to_number k <? 4294967295)%N
      then Some (to_number k) else None
  end.

(** Creation of a property: an index key goes before the first key that is
    not a smaller index, any other key goes last. *)
Fixpoint obj_create {V : Type} (k : string) (v : V) (o : Obj V) : Obj V :=
  match o with
  | [] => [(k, v)]
  | (k', v') :: r =>
      match array_index k, array_index k' with
      | Some i, Some j =>
          if (i <? j)%N then (k, v) :: o else (k', v') :: obj_create k v r
      | Some _, None => (k, v) :: o
      | None, _ => (k', v') :: obj_create k v r
      end
  end.

Definition obj_has {V : Type} (k : string) (o : Obj V) : bool :=
  existsb (fun e => fst e =? k) o.

Fixpoint obj_replace {V : Type} (k : string) (v : V) (o : Obj V) : Obj V :=
  match o with
  | [] => []
  | (k', v') :: r =>
      if k' =? k then (k', v) :: r else (k', v') :: obj_replace k v r
  end.

(** [o[k] = v]: the value of an existing property is replaced where it
    stands; a missing one is created. *)
Definition obj_set {V : Type} (k : string) (v : V) (o : Obj V) : Obj V :=
  if obj_has k o then obj_replace k v o else obj_create k v o.

(** [Object.entries(o)] *)
Definition entries {V : Type} (o : Obj V) : list (string * V) := o.

End JS.


(* ================================================================== *)
(** ** The [semver] package

    [semver] is a dependency of the repository.  This module follows its
    strict mode, the one [Array.prototype.sort] reaches when it calls
    [semver.rcompare] with two arguments: the grammar of the [FULL]
    expression, the [SemVer] constructor, [compare] and [rcompare].

    An identifier is a number or a string, as in the package: a numeric
    pre-release identifier becomes a number only below [MAX_SAFE_INTEGER]
    and stays a string otherwise, and [compareIdentifiers] converts two
    numeric identifiers to numbers, that is to doubles, before it compares
    them. *)

Module Semver.

Definition MAX_LENGTH : nat := 256.
Definition MAX_SAFE_INTEGER : N := 9007199254740991.

Inductive Identifier : Type :=
| Num (n : N)
| Alnum (s : string).

Record SemVer : Type := mkSemVer {
  major : N;
  minor : N;
  patch : N;
  prerelease : list Identifier;
  build : list string
}.

(** *** Grammar *)

(** [[a-zA-Z0-9-]] *)
Definition is_letterdashnumber (c : ascii) : bool :=
  let x := N_of_ascii c in
  ((48 <=? x) && (x <=? 57) || (65 <=? x) && (x <=? 90)
   || (97 <=? x) && (x <=? 122) || (x =? 45))%N.

(** [/^[0-9]+$/] *)
Definition numeric (s : string) : bool :=
  negb (s =? "") && JS.all_chars JS.is_digit s.

(** [NUMERICIDENTIFIER]: [0|[1-9]\d*] *)
Definition numeric_identifier (s : string) : bool :=
  match s with
  | EmptyString => false
  | String "0" r => r =? ""
  | String c r => JS.is_digit c && JS.all_chars JS.is_digit r
  end.

(** [PRERELEASEIDENTIFIER]: a numeric identifier, or
    [\d*[a-zA-Z-][a-zA-Z0-9-]*]. *)
Definition prerelease_identifier (s : string) : bool :=
  negb (s =? "") && JS.all_chars is_letterdashnumber s
  && (negb (JS.all_chars JS.is_digit s) || numeric_identifier s).

(** [BUILDIDENTIFIER]: [[0-9A-Za-z-]+] *)
Definition build_identifier (s : string) : bool :=
  negb (s =? "") && JS.all_chars is_letterdashnumber s.

(** [cut c s]: [s] up to the first [c], and what follows that [c], if any. *)
Fixpoint cut (c : ascii) (s : string) : string * option string :=
  match s with
  | EmptyString => (EmptyString, None)
  | String a r =>
      if Ascii.eqb a c then (EmptyString, Some r)
      else let '(front, back) := cut c r in (String a front, back)
  end.

(** The groups a match of [FULL] captures: the three numbers, the
    pre-release identifiers and the build identifiers.  No identifier
    contains [+], and none of the main version contains [-], so the first
    [+] starts the build and the first [-] before it the pre-release. *)
Record FullMatch : Type := mkFullMatch {
  m1 : string;
  m2 : string;
  m3 : string;
  m4 : option string;
  m5 : option string
}.

Definition dotted (p : string -> bool) (o : option string) : bool :=
  match o with
  | None => true
  | Some s => forallb p (JS.split "." s)
  end.

Definition match_FULL (s : string) : option FullMatch :=
  let s := match s with String "v" r => r | _ => s end in
  let '(front, bld) := cut "+" s in
  let '(main, pre) := cut "-" front in
  match JS.split "." main with
  | [a; b; c] =>
      if numeric_identifier a && numeric_identifier b && numeric_identifier c
         && dotted prerelease_identifier pre && dotted build_identifier bld
      then Some (mkFullMatch a b c pre bld)
      else None
  | _ => None
  end.

(** [version.length], in UTF-16 code units: one per character, two for a
    character outside the basic plane (a four-byte sequence). *)
Fixpoint length16 (s : string) : nat :=
  match s with
  | EmptyString => 0
  | String c r =>
      let x := N_of_ascii c in
      (if (128 <=? x)%N && (x <? 192)%N then 0
       else if (240 <=? x)%N then 2 else 1) + length16 r
  end.

(** *** [new SemVer(version)] *)

(** The callback of [m[4].split('.').map]: a string of digits becomes the
    number it denotes when that is below [MAX_SAFE_INTEGER]; any other
    identifier stays the string it is. *)
Definition prerelease_of (id : string) : Identifier :=
  if numeric id
  then let num := JS.ToNumber id in
       if (num <? MAX_SAFE_INTEGER)%N then Num num else Alnum id
  else Alnum id.

Definition new_SemVer (version : string) : Completion SemVer :=
  if (MAX_LENGTH <? length16 version)%nat
  then Throw (TypeError "version is longer than 256 characters")
  else
    match match_FULL (JS.trim version) with
    | None => Throw (TypeError ("Invalid Version: " ++ version))
    | Some m =>
        let major := JS.ToNumber (m1 m) in
        let minor := JS.ToNumber (m2 m) in
        let patch := JS.ToNumber (m3 m) in
        if (MAX_SAFE_INTEGER <? major)%N
        then Throw (TypeError "Invalid major version")
        else if (MAX_SAFE_INTEGER <? minor)%N
        then Throw (TypeError "Invalid minor version")
        else if (MAX_SAFE_INTEGER <? patch)%N
        then Throw (TypeError "Invalid patch version")
        else
          Normal
            (mkSemVer major minor patch
               (match m4 m with
                | None => []
                | Some pre => map prerelease_of (JS.split "." pre)
                end)
               (match m5 m with
                | None => []
                | Some b => JS.split "." b
                end))
    end.

(** *** Comparison *)

(** [numeric.test(a)]: a number prints as digits; a string is tested as it
    is. *)
Definition is_numeric (a : Identifier) : bool :=
  match a with
  | Num _ => true
  | Alnum s => numeric s
  end.

(** [+a], for a numeric [a]. *)
Definition number_of (a : Identifier) : N :=
  match a with
  | Num n => n
  | Alnum s => JS.ToNumber s
  end.

(** [compareIdentifiers(a, b)]: when both are numeric they are compared as
    the numbers [+a] and [+b]; otherwise equal identifiers give 0, a numeric
    one comes before one that is not, and two strings compare as strings. *)
Definition compareIdentifiers (a b : Identifier) : Z :=
  let anum := is_numeric a in
  let bnum := is_numeric b in
  if anum && bnum
  then
    let x := number_of a in
    let y := number_of b in
    if (x =? y)%N then 0 else if (x <? y)%N then -1 else 1
  else
    match a, b with
    | Alnum x, Alnum y =>
        if (x =? y)%string then 0
        else if anum && negb bnum then -1
        else if bnum && negb anum then 1
        else if String.ltb x y then -1 else 1
    | _, _ =>                 (* a number and a string: not equal *)
        if anum && negb bnum then -1 else 1
    end%Z.

(** JavaScript's [x || y] on numbers. *)
Definition or_else (x y : Z) : Z := if (x =? 0)%Z then y else x.

Definition compareMain (this other : SemVer) : Z :=
  or_else (compareIdentifiers (Num (major this)) (Num (major other)))
    (or_else (compareIdentifiers (Num (minor this)) (Num (minor other)))
       (compareIdentifiers (Num (patch this)) (Num (patch other)))).

Definition identifier_eqb (a b : Identifier) : bool :=
  match a, b with
  | Num x, Num y => (x =? y)%N
  | Alnum x, Alnum y => (x =? y)%string
  | _, _ => false
  end.

(** The [do ... while (++i)] loop of [comparePre], on the two identifier
    lists from position [i] on. *)
Fixpoint comparePre_loop (this other : list Identifier) : Z :=
  match this, other with
  | [], [] => 0
  | _ :: _, [] => 1
  | [], _ :: _ => -1
  | a :: this', b :: other' =>
      if identifier_eqb a b then comparePre_loop this' other'
      else compareIdentifiers a b
  end%Z.

(** [comparePre], on the [prerelease] arrays of [this] and [other]: not
    having a pre-release is greater than having one. *)
Definition comparePre_arrays (this other : list Identifier) : Z :=
  match this, other with
  | _ :: _, [] => -1
  | [], _ :: _ => 1
  | [], [] => 0
  | _, _ => comparePre_loop this other
  end%Z.

Definition comparePre (this other : SemVer) : Z :=
  comparePre_arrays (prerelease this) (prerelease other).

Fixpoint identifiers_eqb (p q : list Identifier) : bool :=
  match p, q with
  | [], [] => true
  | a :: p', b :: q' => identifier_eqb a b && identifiers_eqb p' q'
  | _, _ => false
  end.

(** [other.version === this.version]: [version] is the text formatted from
    major, minor, patch and the pre-release identifiers, so two versions
    that the constructor built have the same one exactly when these four
    fields agree. *)
Definition same_version (this other : SemVer) : bool :=
  (major this =? major other)%N && (minor this =? minor other)%N
  && (patch this =? patch other)%N
  && identifiers_eqb (prerelease this) (prerelease other).

(** [SemVer.prototype.compare] *)
Definition SemVer_compare (this other : SemVer) : Z :=
  if same_version this other then 0%Z
  else or_else (compareMain this other) (comparePre this other).

(** [semver.compare(a, b)] *)
Definition compare (a b : string) : Completion Z :=
  x <- new_SemVer a ;;
  y <- new_SemVer b ;;
  Normal (SemVer_compare x y).

(** [semver.rcompare(a, b)] *)
Definition rcompare (a b : string) : Completion Z := compare b a.

(** A string is a version when [new SemVer] accepts it. *)
Definition valid (s : string) : Prop := exists v, new_SemVer s = Normal v.

(** [gte a b]: [a] has precedence greater than or equal to [b]'s. *)
Definition gte (a b : string) : Prop :=
  exists c, compare a b = Normal c /\ (0 <= c)%Z.

End Semver.

(* ================================================================== *)
(** ** [src/routes/package.js] *)

Module Routes.

(** *** Data the routes receive *)

(** A row of [packages.existingVersions]. *)
Record VersionRow : Type := mkVersionRow { version : string }.

(** The row of [packages.getPackageOverview]: [metadata] and [docs] are JSON
    text. *)
Record PackageInfo : Type := mkPackageInfo {
  pkg_name : string;      (* name *)
  pkg_version : string;   (* version *)
  readme : string;
  metadata : string;
  docs : string
}.

(** The [exposed-modules] field of the parsed metadata: an array of module
    names, or an object from group names to arrays of module names. *)
Inductive ExposedModules : Type :=
| ModuleList (modules : list string)
| ModuleGroups (groups : JS.Obj (list string)).

Record Metadata : Type := mkMetadata { exposed_modules : ExposedModules }.

(** The records of a module's four symbol tables, with the fields the code
    reads. *)
Record ValueData : Type := mkValueData {
  v_name : string; v_comment : string; v_type : string
}.

Record BinopData : Type := mkBinopData {
  b_name : string; b_comment : string; b_type : string
}.

Record UnionData : Type := mkUnionData {
  u_name : string; u_comment : string;
  u_args : list string; u_tags : list (string * list string)
}.

Record AliasData : Type := mkAliasData {
  a_name : string; a_comment : string;
  a_args : list string; a_type : string
}.

(** An element of the parsed docs: one module. *)
Record ModuleInfo : Type := mkModuleInfo {
  name : string;
  comment : string;
  values : list ValueData;
  binops : list BinopData;
  unions : list UnionData;
  aliases : list AliasData
}.

(** Objects with a [name] property. *)
Class Named (A : Type) : Type := name_of : A -> string.

#[global] Instance Named_value : Named ValueData := v_name.
#[global] Instance Named_binop : Named BinopData := b_name.
#[global] Instance Named_union : Named UnionData := u_name.
#[global] Instance Named_alias : Named AliasData := a_name.
#[global] Instance Named_module : Named ModuleInfo := name.

(** *** View models *)

Record ModuleLink : Type := mkModuleLink {
  link_name : string;   (* name *)
  link : string
}.

(** What a property of the [exposedModules] object holds while
    [prepareExposedModulesView] runs: the module names it started with, or
    the links that replaced them. *)
Inductive IndexEntry : Type :=
| Names (modules : list string)
| Links (links : list ModuleLink).

(** The objects the constructors [Markdown], [Value], [Binop], [Union] and
    [Alias] build. *)
Inductive DocNode : Type :=
| Markdown (html : string)
| Value (name comment type : string)
| Binop (name comment type : string)
| Union (name comment : string) (args : list string)
        (tags : list (string * list string))
| Alias (name comment : string) (args : list string) (type : string).

(** The result of [prepareModuleDocumentation]: the empty string, or an
    array whose elements are nodes or [undefined] ([None]). *)
Inductive ModuleDocumentation : Type :=
| EmptyText
| Nodes (nodes : list (option DocNode)).

Record PackageOverviewArgs : Type := mkPackageOverviewArgs {
  po_packageName : string;
  po_packageVersion : string;
  po_packageOverviewLink : string;
  po_readme : string;
  po_exposedModules : JS.Obj IndexEntry
}.

Record PackageModuleArgs : Type := mkPackageModuleArgs {
  pm_packageName : string;
  pm_packageVersion : string;
  pm_packageOverviewLink : string;
  pm_moduleName : string;
  pm_moduleDocs : ModuleDocumentation;
  pm_exposedModules : JS.Obj IndexEntry
}.

(** The values the handlers bind and return. *)
Inductive JsValue : Type :=
| VUndefined
| VString (s : string)
| VPackageInfo (row : PackageInfo)
| VMetadata (m : Metadata)
| VExposedModules (o : JS.Obj IndexEntry)
| VDocs (modules : list ModuleInfo)
| VModuleInfo (m : ModuleInfo)
| VModuleDocumentation (d : ModuleDocumentation)
| VPackageOverview (args : PackageOverviewArgs)  (* views.packageOverview(args) *)
| VPackageModule (args : PackageModuleArgs)      (* views.packageModule(args) *)
| VNegotiated (for_html for_text : string)
    (* a text that is [for_html] for a request that accepts html and
       [for_text] for any other *)
| VOpaque (what : string).                       (* functions, imports, ctx *)

(** The part of Koa's context the handlers touch.  A fresh context has
    status 404 and no body. *)
Record Context : Type := mkContext {
  status : nat;
  location : option string;
  body : option JsValue
}.

Definition fresh_context : Context := mkContext 404 None None.

Definition set_status (n : nat) (ctx : Context) : Context :=
  mkContext n (location ctx) (body ctx).

(** [escape-html], which Koa applies to the url it shows. *)
Fixpoint escape_html (s : string) : string :=
  match s with
  | EmptyString => EmptyString
  | String c r =>
      let x := N_of_ascii c in
      ((if (x =? 34)%N then "&quot;"
        else if (x =? 38)%N then "&amp;"
        else if (x =? 39)%N then "&#39;"
        else if (x =? 60)%N then "&lt;"
        else if (x =? 62)%N then "&gt;"
        else String c EmptyString)
       ++ escape_html r)%string
  end.

(** The body [ctx.redirect(url)] writes: an anchor for a request that
    accepts html, a plain sentence for any other. *)
Definition redirect_notice (url : string) : JsValue :=
  let quote := String (ascii_of_nat 34) EmptyString in
  VNegotiated
    ("Redirecting to <a href=" ++ quote ++ escape_html url ++ quote ++ ">"
       ++ escape_html url ++ "</a>.")
    ("Redirecting to " ++ url ++ ".").

(** [ctx.redirect(url)] of Koa, for a url other than ["back"]: it sets
    [Location], keeps a status that is already a redirect status and else
    sets 302, and writes the notice as the body.  [Location] is the url
    passed through [encodeUrl], which leaves a url made of unreserved marks,
    [%] escapes and [/] as it is; the content type it also sets is not part
    of [Context]. *)
Definition redirect_status (n : nat) : bool :=
  existsb (Nat.eqb n) [300; 301; 302; 303; 305; 307; 308]%nat.

Definition redirect (url : string) (ctx : Context) : Context :=
  mkContext (if redirect_status (status ctx) then status ctx else 302)
    (Some url) (Some (redirect_notice url)).

(** *** Content negotiation *)

Inductive Format : Type := html | json | text.

(** Modelled from the spec: [views.render] of [#src/views], which is not
    among the sources.  Exactly one shaping function runs per request, the
    one the negotiated format selects; with no format specified the
    structured one runs.  Its value becomes the response body. *)
Definition views_render (ctx : Context) (format : option Format)
    (on_html on_json on_text : unit -> Completion JsValue)
  : Completion Context :=
  payload <- match format with
             | Some html => on_html tt
             | Some json | None => on_json tt
             | Some text => on_text tt
             end ;;
  Normal (mkContext 200 (location ctx) (Some payload)).

(** *** Scopes *)

(** The bindings of the module: its imports, its two constants and its
    hoisted function declarations. *)
Definition module_scope : list (string * JsValue) :=
  map (fun id => (id, VOpaque id))
    ["Router"; "semver"; "MarkdownIt"; "views"; "packages"; "router";
     "markdown"; "packageOverviewLink"; "prepareExposedModulesView";
     "prepareModuleForView"; "prepareModuleDocumentation"; "Markdown";
     "Value"; "Binop"; "Union"; "Alias"; "constructValue"; "findByName"].

(** The properties of the global object of the runtime that hosts the
    module. *)
Definition global_scope : list (string * JsValue) :=
  map (fun id => (id, VOpaque id))
    ["globalThis"; "Object"; "Function"; "Array"; "Number"; "Boolean";
     "String"; "Symbol"; "BigInt"; "Math"; "Date"; "RegExp"; "JSON";
     "Promise"; "Proxy"; "Reflect"; "Map"; "Set"; "WeakMap"; "WeakSet";
     "WeakRef"; "Error"; "TypeError"; "RangeError"; "ReferenceError";
     "SyntaxError"; "EvalError"; "URIError"; "AggregateError";
     "ArrayBuffer"; "SharedArrayBuffer"; "DataView"; "Atomics"; "Intl";
     "WebAssembly"; "Int8Array"; "Uint8Array"; "Uint8ClampedArray";
     "Int16Array"; "Uint16Array"; "Int32Array"; "Uint32Array";
     "Float32Array"; "Float64Array"; "BigInt64Array"; "BigUint64Array";
     "Infinity"; "NaN"; "undefined"; "eval"; "isFinite"; "isNaN";
     "parseFloat"; "parseInt"; "decodeURI"; "decodeURIComponent";
     "encodeURI"; "encodeURIComponent"; "escape"; "unescape";
     "global"; "process"; "Buffer"; "console"; "queueMicrotask";
     "setTimeout"; "clearTimeout"; "setInterval"; "clearInterval";
     "setImmediate"; "clearImmediate"; "structuredClone"; "performance";
     "URL"; "URLSearchParams"; "TextEncoder"; "TextDecoder";
     "AbortController"; "AbortSignal"; "Event"; "EventTarget";
     "MessageChannel"; "MessagePort"; "MessageEvent"; "BroadcastChannel";
     "Blob"; "fetch"; "Headers"; "Request"; "Response"; "FormData";
     "crypto"; "atob"; "btoa"; "navigator"].

Fixpoint lookup (id : string) (scope : list (string * JsValue))
  : option JsValue :=
  match scope with
  | [] => None
  | (k, v) :: r => if k =? id then Some v else lookup id r
  end.

(** Evaluation of an identifier: the innermost scope that binds it gives
    the value; an identifier bound in none is a [ReferenceError]. *)
Fixpoint resolve (id : string) (chain : list (list (string * JsValue)))
  : Completion JsValue :=
  match chain with
  | [] => Throw (ReferenceError (id ++ " is not defined"))
  | scope :: outer =>
      match lookup id scope with
      | Some v => Normal v
      | None => resolve id outer
      end
  end.

(** [v.readme] *)
Definition get_readme (v : JsValue) : Completion JsValue :=
  match v with
  | VPackageInfo row => Normal (VString (readme row))
  | VUndefined =>
      Throw (TypeError "Cannot read properties of undefined (reading 'readme')")
  | _ => Normal VUndefined
  end.

(** The row [await packages.getPackageOverview(...)] yields is an input of
    the handlers; [None] is the absence of a stored overview.  [dereference
    prop packageInfo] is the object a first property access
    [packageInfo.prop] reads from. *)
Definition dereference (prop : string) (packageInfo : option PackageInfo)
  : Completion PackageInfo :=
  match packageInfo with
  | Some row => Normal row
  | None =>
      Throw (TypeError ("Cannot read properties of undefined (reading '"
                        ++ prop ++ "')"))
  end.

(** *** Links and the module index *)

Definition packageOverviewLink (packageName version : string) : string :=
  let packageNameUri := JS.encodeURIComponent packageName in
  let versionUri := JS.encodeURIComponent version in
  "/package/" ++ packageNameUri ++ "/version/" ++ versionUri ++ "/overview".

Definition prepareModuleForView (packageName version moduleName : string)
  : ModuleLink :=
  let packageNameUri := JS.encodeURIComponent packageName in
  let versionUri := JS.encodeURIComponent version in
  let moduleUri := JS.encodeURIComponent moduleName in
  mkModuleLink moduleName
    ("/package/" ++ packageNameUri ++ "/version/" ++ versionUri
       ++ "/module/" ++ moduleUri).

(** The loop runs over the entries [Object.entries] listed before it
    started, and assigns to the object itself. *)
Definition prepareExposedModulesView (packageName version : string)
    (metadataObj : Metadata) : JS.Obj IndexEntry :=
  let exposedModules :=
    match exposed_modules metadataObj with
    | ModuleList modules => [("", modules)]
    | ModuleGroups groups => groups
    end in
  fold_left
    (fun (o : JS.Obj IndexEntry) (entry : string * list string) =>
       let '(key, value) := entry in
       JS.obj_set key
         (Links (map (fun module =>
                        prepareModuleForView packageName version module)
                   value))
         o)
    (JS.entries exposedModules)
    (map (fun entry => (fst entry, Names (snd entry))) exposedModules).

(** *** Documentation of a module *)

Definition findByName {A : Type} `{Named A} (list : list A) (name : string)
  : option A :=
  JS.find (fun e => name_of e =? name) list.

(** The delimiter ["\n@docs"]. *)
Definition docs_delimiter : string := String "010" "@docs".

Section Documentation.

(** [markdown.render] of the shared markdown-it instance. *)
Variable markdown_render : string -> string.

Definition constructValue (moduleInfo : ModuleInfo) (name : string)
  : option DocNode :=
  match findByName (values moduleInfo) name with
  | Some data =>
      Some (Value name (markdown_render (v_comment data)) (v_type data))
  | None =>
  match findByName (binops moduleInfo) name with
  | Some data =>
      Some (Binop name (markdown_render (b_comment data)) (b_type data))
  | None =>
  match findByName (unions moduleInfo) name with
  | Some data =>
      Some (Union name (markdown_render (u_comment data))
              (u_args data) (u_tags data))
  | None =>
  match findByName (aliases moduleInfo) name with
  | Some data =>
      Some (Alias name (markdown_render (a_comment data))
              (a_args data) (a_type data))
  | None => None
  end end end end.

(** The callback of the second [flatMap]: the nodes of one comma-separated
    block. *)
Definition block_nodes (moduleInfo : ModuleInfo) (block : string)
  : list (option DocNode) :=
  let words := JS.split_ws (JS.trim block) in
  match words with
  | [] => []                                   (* words.length === 0 *)
  | firstWord :: _ =>
      let part := constructValue moduleInfo firstWord in
      if (List.length words =? 1)%nat then [part]
      else
        let moreMarkdown :=
          Markdown
            (markdown_render
               (JS.slice (String.length firstWord) (JS.trimLeft block))) in
        [part; Some moreMarkdown]
  end.

Definition prepareModuleDocumentation (moduleInfo : ModuleInfo)
  : ModuleDocumentation :=
  let docSplit := JS.split docs_delimiter (comment moduleInfo) in
  match docSplit with
  | [] => EmptyText                            (* docSplit.length === 0 *)
  | first :: rest =>
      let intro := Markdown (markdown_render first) in
      let parts :=
        flat_map (block_nodes moduleInfo)
          (flat_map (fun p => JS.split "," p) rest) in
      Nodes ([Some intro] ++ parts)
  end.

(** *** Route handlers *)

(** [JSON.parse] of the two JSON texts of a row, with the shape of what the
    handlers read from the result. *)
Variable JSON_parse_metadata : string -> Completion Metadata.
Variable JSON_parse_docs : string -> Completion (list ModuleInfo).

(** [versionsOfPackage.sort(semver.rcompare)[0]] *)
Definition latestVersion (versionsOfPackage : list string)
  : Completion (option string) :=
  sorted <- JS.sort Semver.rcompare versionsOfPackage ;;
  Normal (hd_error sorted).

(** Conversion of a value that is a string or [undefined] to a string. *)
Definition ToString (v : option string) : string :=
  match v with
  | Some s => s
  | None => "undefined"
  end.

(** [GET /:package] *)
Definition package_route (packageName : string)
    (versionRowsOfPackage : list VersionRow) (ctx : Context)
  : Completion Context :=
  let versionsOfPackage := map version versionRowsOfPackage in
  if (List.length versionsOfPackage =? 0)%nat
  then Normal (set_status 404 ctx)
  else
    latest <- latestVersion versionsOfPackage ;;
    let packageNameUri := JS.encodeURIComponent packageName in
    let versionUri := JS.encodeURIComponent (ToString latest) in
    Normal
      (redirect
         ("/package/" ++ packageNameUri ++ "/version/" ++ versionUri
            ++ "/overview")
         (set_status 303 ctx)).

(** [GET /:package/version/:version/overview].  The identifiers the three
    callbacks close over are the variables of the same name here, but for
    [docs], which nothing in the handler or the module binds: evaluating it
    is a lookup through the scope chain. *)
Definition overview_route (packageName version : string)
    (packageInfo : option PackageInfo) (format : option Format)
    (ctx : Context) : Completion Context :=
  row <- dereference "readme" packageInfo ;;
  let renderedMarkdown := markdown_render (readme row) in
  metadataObj <- JSON_parse_metadata (metadata row) ;;
  let exposedModules :=
    prepareExposedModulesView packageName version metadataObj in
  let handler_scope :=
    [("ctx", VOpaque "ctx"); ("next", VOpaque "next");
     ("packageName", VString packageName); ("version", VString version);
     ("packageInfo", VPackageInfo row);
     ("renderedMarkdown", VString renderedMarkdown);
     ("metadataObj", VMetadata metadataObj);
     ("exposedModules", VExposedModules exposedModules)] in
  let chain := [handler_scope; module_scope; global_scope] in
  views_render ctx format
    (fun _ =>
       Normal
         (VPackageOverview
            (mkPackageOverviewArgs (pkg_name row) (pkg_version row)
               (packageOverviewLink packageName version)
               renderedMarkdown exposedModules)))
    (fun _ => resolve "docs" chain)
    (fun _ => d <- resolve "docs" chain ;; get_readme d).

(** [GET /:package/version/:version/module/:module] *)
Definition module_route (packageName version moduleName : string)
    (packageInfo : option PackageInfo) (format : option Format)
    (ctx : Context) : Completion Context :=
  row <- dereference "docs" packageInfo ;;
  modules <- JSON_parse_docs (docs row) ;;
  match JS.find (fun module => name module =? moduleName) modules with
  | None => Normal (set_status 404 ctx)
  | Some moduleInfo =>
      metadataObj <- JSON_parse_metadata (metadata row) ;;
      let exposedModules :=
        prepareExposedModulesView packageName version metadataObj in
      let moduleDocumentation := prepareModuleDocumentation moduleInfo in
      views_render ctx format
        (fun _ =>
           Normal
             (VPackageModule
                (mkPackageModuleArgs packageName version
                   (packageOverviewLink packageName version)
                   moduleName moduleDocumentation exposedModules)))
        (fun _ => Normal (VModuleInfo moduleInfo))
        (fun _ => Normal (VModuleDocumentation moduleDocumentation))
  end.

End Documentation.

End Routes.

(* ================================================================== *)
(** ** Vocabulary of the statements *)

(** A comparison function is consistent when swapping its arguments negates
    its result and "not after" is transitive. *)
Record Consistent {A : Type} (f : A -> A -> Z) : Prop := mkConsistent {
  consistent_swap : forall a b, f b a = (- f a b)%Z;
  consistent_trans :
    forall a b c, (f a b <= 0)%Z -> (f b c <= 0)%Z -> (f a c <= 0)%Z
}.

(** [before comparefn a b]: [comparefn] returns, and lets [a] stand before
    [b] in a sorted array. *)
Definition before {A : Type} (comparefn : A -> A -> Completion Z) (a b : A)
  : Prop :=
  exists c, comparefn a b = Normal c /\ (c <= 0)%Z.

(** Three-way comparison of naturals and of strings, as [compareIdentifiers]
    computes it. *)
Definition compare_N (x y : N) : Z :=
  if (x =? y)%N then 0%Z else if (x <? y)%N then (-1)%Z else 1%Z.

Definition compare_string (x y : string) : Z :=
  if (x =? y)%string then 0%Z else if String.ltb x y then (-1)%Z else 1%Z.

(** *** Precedence of semantic versions

    The order the specification names: major, minor and patch compared as
    numbers; a version with a pre-release before the same version without
    one; pre-release identifiers compared from the left, numeric ones by
    their value, a numeric one before one that is not, the others as text, a
    longer list after its prefix; build metadata ignored.  Every number is
    the natural its digits denote, whatever its size. *)

Module Precedence.

(** An identifier as the order sees it: a string of digits is its value. *)
Definition key (id : Semver.Identifier) : Semver.Identifier :=
  match id with
  | Semver.Num n => Semver.Num n
  | Semver.Alnum s =>
      if Semver.numeric s then Semver.Num (JS.to_number s) else Semver.Alnum s
  end.

Definition compare_keys (a b : Semver.Identifier) : Z :=
  match a, b with
  | Semver.Num x, Semver.Num y => compare_N x y
  | Semver.Num _, Semver.Alnum _ => (-1)%Z
  | Semver.Alnum _, Semver.Num _ => 1%Z
  | Semver.Alnum x, Semver.Alnum y => compare_string x y
  end.

Fixpoint compare_key_lists (p q : list Semver.Identifier) : Z :=
  match p, q with
  | [], [] => 0%Z
  | _ :: _, [] => 1%Z
  | [], _ :: _ => (-1)%Z
  | a :: p', b :: q' =>
      Semver.or_else (compare_keys a b) (compare_key_lists p' q')
  end.

Definition compare_prerelease (p q : list Semver.Identifier) : Z :=
  match p, q with
  | _ :: _, [] => (-1)%Z
  | [], _ :: _ => 1%Z
  | _, _ => compare_key_lists p q
  end.

(** The order on versions that [new SemVer] has read. *)
Definition compare_read (a b : Semver.SemVer) : Z :=
  Semver.or_else (compare_N (Semver.major a) (Semver.major b))
    (Semver.or_else (compare_N (Semver.minor a) (Semver.minor b))
       (Semver.or_else (compare_N (Semver.patch a) (Semver.patch b))
          (compare_prerelease (map key (Semver.prerelease a))
             (map key (Semver.prerelease b))))).

(** The order on version strings: [1], [0] or [-1] as [a] is after, level
    with or before [b]. *)
Definition compare (a b : string) : Completion Z :=
  x <- Semver.new_SemVer a ;;
  y <- Semver.new_SemVer b ;;
  Normal (compare_read x y).

(** [gte a b]: the precedence of [a] is greater than or equal to that of
    [b]. *)
Definition gte (a b : string) : Prop :=
  exists c, compare a b = Normal c /\ (0 <= c)%Z.

End Precedence.

(** A version whose numeric pre-release identifiers are all below
    [MAX_SAFE_INTEGER]: the constructor made numbers of them all, and no
    string of digits is left among its identifiers. *)
Definition safe_identifier (id : Semver.Identifier) : bool :=
  match id with
  | Semver.Num _ => true
  | Semver.Alnum s => negb (Semver.numeric s)
  end.

Definition safe (s : string) : Prop :=
  exists v, Semver.new_SemVer s = Normal v
            /\ forallb safe_identifier (Semver.prerelease v) = true.

(** [first_named l n d]: [d] is the first element of [l] whose [name] is
    exactly [n]; [none_named l n]: no element of [l] has that name. *)
Definition first_named {A : Type} `{Routes.Named A} (l : list A) (n : string)
    (d : A) : Prop :=
  exists l1 l2,
    l = l1 ++ d :: l2 /\ Routes.name_of d = n
    /\ Forall (fun e => Routes.name_of e <> n) l1.

Definition none_named {A : Type} `{Routes.Named A} (l : list A) (n : string)
  : Prop :=
  Forall (fun e => Routes.name_of e <> n) l.

(** [occurs sep s]: [sep] occurs in [s]; [text_before_first sep s intro]:
    [intro] is [s] up to the first occurrence of [sep], all of [s] when
    there is none. *)
Definition occurs (sep s : string) : Prop :=
  exists p q, s = (p ++ sep ++ q)%string.

Definition text_before_first (sep s intro : string) : Prop :=
  (~ occurs sep s /\ intro = s)
  \/ (exists q,
        s = (intro ++ sep ++ q)%string
        /\ forall p' q', s = (p' ++ sep ++ q')%string ->
                         String.length intro <= String.length p').

(** The test for [occurs]. *)
Fixpoint occursb (sep s : string) : bool :=
  prefix sep s
  || match s with
     | EmptyString => false
     | String _ r => occursb sep r
     end.

(** [url_safe s]: every character of [s] is an unreserved mark or [%]. *)
Definition url_safe (s : string) : bool :=
  JS.all_chars (fun c => JS.unreserved c || Ascii.eqb c "%") s.

(** [count_char c s]: the number of occurrences of [c] in [s]. *)
Fixpoint count_char (c : ascii) (s : string) : nat :=
  match s with
  | EmptyString => 0
  | String a r => (if Ascii.eqb a c then 1 else 0) + count_char c r
  end.

(** The byte a [%XX] escape stands for, from its two hexadecimal digits. *)
Definition hex_value (c : ascii) : N :=
  let x := N_of_ascii c in
  if JS.is_digit c then (x - 48)%N else (x - 55)%N.

Definition unescape (hi lo : ascii) : ascii :=
  ascii_of_N (16 * hex_value hi + hex_value lo).

(** [is_prose slot]: the slot of a documentation array holds a [Markdown]
    node.  [adjacent_prose nodes]: two neighbours in [nodes] both do. *)
Definition is_prose (slot : option Routes.DocNode) : bool :=
  match slot with
  | Some (Routes.Markdown _) => true
  | _ => false
  end.

Fixpoint adjacent_prose (nodes : list (option Routes.DocNode)) : bool :=
  match nodes with
  | a :: (b :: _) as rest => is_prose a && is_prose b || adjacent_prose rest
  | _ => false
  end.

(** The [name] of the object a symbol constructor built. *)
Definition node_name (node : Routes.DocNode) : option string :=
  match node with
  | Routes.Markdown _ => None
  | Routes.Value n _ _ => Some n
  | Routes.Binop n _ _ => Some n
  | Routes.Union n _ _ _ => Some n
  | Routes.Alias n _ _ _ => Some n
  end.

(** The comma-separated blocks of a comment's directives, in order, and the
    first word of a block. *)
Definition sub_blocks (comment : string) : list string :=
  flat_map (fun p => JS.split "," p)
    (tl (JS.split Routes.docs_delimiter comment)).

Definition first_word (block : string) : string :=
  hd EmptyString (JS.split_ws (JS.trim block)).

(** *** Sample inputs *)

Module Examples.

Definition nl : string := String "010" EmptyString.

(** A renderer that wraps the trimmed text in a paragraph. *)
Definition render_paragraph (txt : string) : string :=
  ("<p>" ++ JS.trim txt ++ "</p>" ++ nl)%string.

(** The comment ["Intro text.\n@docs foo\nMore text.\n@docs bar, baz"]. *)
Definition comment_foo_bar_baz : string :=
  ("Intro text." ++ nl ++ "@docs foo" ++ nl ++ "More text." ++ nl
     ++ "@docs bar, baz")%string.

Definition foo : Routes.ValueData :=
  Routes.mkValueData "foo" "The foo." "Int".
Definition bar : Routes.ValueData :=
  Routes.mkValueData "bar" "The bar." "String".
Definition baz : Routes.ValueData :=
  Routes.mkValueData "baz" "The baz." "Int -> Int".

Definition module_foo_bar_baz : Routes.ModuleInfo :=
  Routes.mkModuleInfo "Sample" comment_foo_bar_baz [foo; bar; baz] [] [] [].

(** A module whose directive ends in a comma: ["Intro.\n@docs foo, "]. *)
Definition module_trailing_comma : Routes.ModuleInfo :=
  Routes.mkModuleInfo "Sample" ("Intro." ++ nl ++ "@docs foo, ")%string
    [foo] [] [] [].

(** A module with a record whose name is the empty string, and the comment
    ["Intro.\n@docs ,"]. *)
Definition module_unnamed : Routes.ModuleInfo :=
  Routes.mkModuleInfo "Sample" ("Intro." ++ nl ++ "@docs ,")%string
    [Routes.mkValueData EmptyString "Unnamed." "Int"] [] [] [].

(** A module where [foo] names both a value and an operator. *)
Definition module_shadowed : Routes.ModuleInfo :=
  Routes.mkModuleInfo "Sample" "Intro."
    [bar; foo] [Routes.mkBinopData "foo" "The operator." "Int -> Int -> Int"]
    [Routes.mkUnionData "Maybe" "Optional." ["a"] []]
    [Routes.mkAliasData "Name" "A name." [] "String"].

(** A stored overview row, and the metadata its JSON text parses to. *)
Definition quoted (s : string) : string :=
  (String (ascii_of_nat 34) s ++ String (ascii_of_nat 34) EmptyString)%string.

Definition row : Routes.PackageInfo :=
  Routes.mkPackageInfo "gren-lang/core" "1.0.0" "# Core"
    ("{ " ++ quoted "exposed-modules" ++ ": [" ++ quoted "A.B" ++ ", "
       ++ quoted "C" ++ "] }")%string
    "[]".

Definition row_metadata : Routes.Metadata :=
  Routes.mkMetadata (Routes.ModuleList ["A.B"; "C"]).

Definition groups : JS.Obj (list string) :=
  [("Core", ["A"]); ("Extra", ["B"; "C"])].

End Examples.

(* ================================================================== *)
(** ** Completions *)

Lemma bind_normal {A B : Type} (c : Completion A) (k : A -> Completion B) b :
  bind c k = Normal b -> exists a, c = Normal a /\ k a = Normal b.
Proof.
  destruct c as [a|e]; simpl; intros H; [eauto | discriminate].
Qed.

(* ================================================================== *)
(** ** Sorting with a comparison function that may throw *)

Section SortFacts.
Context {A : Type} (comparefn : A -> A -> Completion Z) (P : A -> Prop).

Hypothesis comparefn_returns :
  forall a b, P a -> P b -> exists c, comparefn a b = Normal c.
Hypothesis comparefn_swap :
  forall a b c, P a -> P b ->
    comparefn a b = Normal c -> (0 <= c)%Z -> before comparefn b a.
Hypothesis before_trans :
  forall a b c, P a -> P b -> P c ->
    before comparefn a b -> before comparefn b c -> before comparefn a c.

Lemma before_refl a : P a -> before comparefn a a.
Proof.
  intros Pa. destruct (comparefn_returns a a Pa Pa) as [c Hc].
  destruct (Z.le_gt_cases c 0) as [Hle|Hgt].
  - exists c; auto.
  - apply (comparefn_swap a a c); auto; lia.
Qed.

Lemma sort_insert_sorted x l :
  P x -> Forall P l -> StronglySorted (before comparefn) l ->
  exists r, JS.sort_insert comparefn x l = Normal r
            /\ Permutation (x :: l) r
            /\ StronglySorted (before comparefn) r.
Proof.
  intros Px. induction l as [|y l IH]; intros HP HS.
  - exists [x]. simpl. repeat split; auto. constructor; constructor.
  - inversion HP as [|? ? Py HPl]; subst.
    inversion HS as [|? ? HSl Hy]; subst.
    simpl. destruct (comparefn_returns x y Px Py) as [c Hc].
    rewrite Hc; simpl. destruct (Z.ltb_spec c 0) as [Hlt|Hge].
    + exists (x :: y :: l). repeat split; auto.
      constructor; [assumption|]. constructor.
      * exists c. split; [assumption | lia].
      * rewrite Forall_forall in *. intros z Hz.
        apply (before_trans x y z); auto.
        exists c. split; [assumption | lia].
    + destruct (IH HPl HSl) as [r [Hr [Hperm Hsorted]]].
      rewrite Hr; simpl. exists (y :: r). repeat split.
      * eapply perm_trans; [apply perm_swap | apply perm_skip; exact Hperm].
      * constructor; [assumption|].
        rewrite Forall_forall in *. intros z Hz.
        apply (Permutation_in _ (Permutation_sym Hperm)) in Hz.
        destruct Hz as [<-|Hz]; [|auto].
        apply (comparefn_swap x y c); auto.
Qed.

Lemma sort_from_sorted l : forall sorted,
  Forall P sorted -> Forall P l -> StronglySorted (before comparefn) sorted ->
  exists r, JS.sort_from comparefn sorted l = Normal r
            /\ Permutation (sorted ++ l) r
            /\ StronglySorted (before comparefn) r.
Proof.
  induction l as [|x l IH]; intros sorted HPs HPl HS.
  - exists sorted. simpl. rewrite app_nil_r. auto.
  - inversion HPl as [|? ? Px HPl']; subst.
    destruct (sort_insert_sorted x sorted Px HPs HS) as [s' [Hs' [Hperm Hsorted]]].
    simpl. rewrite Hs'; simpl.
    assert (HPs' : Forall P s').
    { rewrite Forall_forall in *. intros z Hz.
      apply (Permutation_in _ (Permutation_sym Hperm)) in Hz.
      destruct Hz as [<-|Hz]; auto. }
    destruct (IH s' HPs' HPl' Hsorted) as [r [Hr [Hperm' Hsorted']]].
    exists r. repeat split; auto.
    eapply perm_trans; [|exact Hperm'].
    eapply perm_trans; [apply Permutation_sym, Permutation_middle|].
    apply (Permutation_app_tail l Hperm).
Qed.

Lemma sort_sorted l :
  Forall P l ->
  exists r, JS.sort comparefn l = Normal r
            /\ Permutation l r
            /\ StronglySorted (before comparefn) r.
Proof.
  intros HP. unfold JS.sort.
  destruct (sort_from_sorted l [] (Forall_nil P) HP (SSorted_nil _))
    as [r [Hr [Hperm Hs]]].
  exists r. auto.
Qed.

Lemma sort_head l :
  l <> [] -> Forall P l ->
  exists h t, JS.sort comparefn l = Normal (h :: t)
              /\ In h l
              /\ forall w, In w l -> before comparefn h w.
Proof.
  intros Hne HP. destruct (sort_sorted l HP) as [r [Hr [Hperm Hs]]].
  destruct r as [|h t].
  - apply Permutation_sym, Permutation_nil in Hperm. contradiction.
  - exists h, t. split; [assumption|].
    assert (Hh : In h l)
      by (apply (Permutation_in _ (Permutation_sym Hperm)); left; reflexivity).
    split; [assumption|]. intros w Hw.
    apply (Permutation_in _ Hperm) in Hw.
    inversion Hs as [|? ? _ Hall]; subst.
    destruct Hw as [<-|Hw].
    + apply before_refl. rewrite Forall_forall in HP. auto.
    + rewrite Forall_forall in Hall. auto.
Qed.

End SortFacts.

(* ================================================================== *)
(** ** Precedence of semantic versions is a consistent comparison *)

Section ConsistentFacts.
Context {A : Type}.

Lemma consistent_refl (f : A -> A -> Z) :
  Consistent f -> forall a, f a a = 0%Z.
Proof.
  intros [Hswap _] a. specialize (Hswap a a). lia.
Qed.

Lemma consistent_or_else (f g : A -> A -> Z) :
  Consistent f -> Consistent g ->
  Consistent (fun a b => Semver.or_else (f a b) (g a b)).
Proof.
  intros [Fs Ft] [Gs Gt]. constructor.
  - intros a b. unfold Semver.or_else. rewrite (Fs a b), (Gs a b).
    destruct (Z.eqb_spec (f a b) 0), (Z.eqb_spec (- f a b) 0); lia.
  - intros a b c. unfold Semver.or_else.
    pose proof (Fs a b). pose proof (Fs b c). pose proof (Fs a c).
    pose proof (Ft a b c). pose proof (Ft c b a).
    pose proof (Ft b c a). pose proof (Ft c a b).
    pose proof (Gt a b c).
    destruct (Z.eqb_spec (f a b) 0), (Z.eqb_spec (f b c) 0),
      (Z.eqb_spec (f a c) 0); lia.
Qed.

Lemma consistent_on {B : Type} (key : B -> A) (f : A -> A -> Z) :
  Consistent f -> Consistent (fun a b => f (key a) (key b)).
Proof.
  intros [Fs Ft]. constructor; intros; eauto.
Qed.

End ConsistentFacts.

Lemma compare_N_consistent : Consistent compare_N.
Proof.
  constructor; unfold compare_N; intros.
  - destruct (N.eqb_spec a b), (N.eqb_spec b a), (N.ltb_spec a b),
      (N.ltb_spec b a); lia.
  - destruct (N.eqb_spec a b), (N.eqb_spec b c), (N.eqb_spec a c),
      (N.ltb_spec a b), (N.ltb_spec b c), (N.ltb_spec a c); lia.
Qed.

Lemma compare_string_spec x y :
  compare_string x y
  = match String.compare x y with Eq => 0 | Lt => -1 | Gt => 1 end%Z.
Proof.
  unfold compare_string, String.ltb.
  destruct (String.eqb_spec x y) as [->|Hne].
  - pose proof (proj2 (String_as_OT.cmp_eq y y) eq_refl) as Hyy.
    unfold String_as_OT.cmp in Hyy. now rewrite Hyy.
  - destruct (String.compare x y) eqn:E; try reflexivity.
    apply String.compare_eq_iff in E. contradiction.
Qed.

Lemma compare_string_consistent : Consistent compare_string.
Proof.
  constructor; intros; rewrite !compare_string_spec in *.
  - rewrite (String.compare_antisym b a).
    destruct (String.compare a b); reflexivity.
  - destruct (String.compare a b) eqn:Eab; try lia;
      destruct (String.compare b c) eqn:Ebc; try lia.
    + apply String.compare_eq_iff in Eab; subst. now rewrite Ebc.
    + apply String.compare_eq_iff in Eab; subst. now rewrite Ebc.
    + apply String.compare_eq_iff in Ebc; subst. now rewrite Eab.
    + apply String_as_OT.cmp_lt in Eab, Ebc.
      pose proof (String_as_OT.lt_trans _ _ _ Eab Ebc) as Hac.
      apply String_as_OT.cmp_lt in Hac. unfold String_as_OT.cmp in Hac.
      now rewrite Hac.
Qed.

Lemma compare_string_zero x y : compare_string x y = 0%Z <-> x = y.
Proof.
  unfold compare_string. destruct (String.eqb_spec x y); [tauto|].
  destruct (String.ltb x y); split; intros; try lia; contradiction.
Qed.

Lemma compare_N_zero x y : compare_N x y = 0%Z <-> x = y.
Proof.
  unfold compare_N. destruct (N.eqb_spec x y); [tauto|].
  destruct (N.ltb x y); split; intros; try lia; contradiction.
Qed.

Lemma compare_keys_consistent : Consistent Precedence.compare_keys.
Proof.
  destruct compare_N_consistent as [Ns Nt].
  destruct compare_string_consistent as [Ss St].
  constructor.
  - intros [x|x] [y|y]; simpl; auto.
  - intros [x|x] [y|y] [z|z]; simpl; eauto; lia.
Qed.

Lemma identifier_eqb_eq a b : Semver.identifier_eqb a b = true <-> a = b.
Proof.
  destruct a as [x|x], b as [y|y]; simpl;
    try (split; intros; discriminate).
  - rewrite N.eqb_eq. split; [now intros -> | now intros [= ->]].
  - rewrite String.eqb_eq. split; [now intros -> | now intros [= ->]].
Qed.

Lemma compare_keys_zero a b : Precedence.compare_keys a b = 0%Z <-> a = b.
Proof.
  destruct a as [x|x], b as [y|y]; simpl.
  - rewrite compare_N_zero. split; [now intros -> | now intros [= ->]].
  - split; [lia | discriminate].
  - split; [lia | discriminate].
  - rewrite compare_string_zero. split; [now intros -> | now intros [= ->]].
Qed.

Lemma compare_key_lists_consistent : Consistent Precedence.compare_key_lists.
Proof.
  destruct compare_keys_consistent as [Is It].
  assert (Hswap : forall p q,
             Precedence.compare_key_lists q p
             = (- Precedence.compare_key_lists p q)%Z).
  { induction p as [|a p IH]; destruct q as [|b q]; try reflexivity.
    cbn [Precedence.compare_key_lists]. rewrite (Is a b), (IH q).
    unfold Semver.or_else.
    destruct (Z.eqb_spec (Precedence.compare_keys a b) 0),
      (Z.eqb_spec (- Precedence.compare_keys a b) 0); lia. }
  constructor; [exact Hswap|].
  induction a as [|x p IH]; destruct b as [|y q]; destruct c as [|z r];
    try (simpl; lia).
  cbn [Precedence.compare_key_lists]. unfold Semver.or_else.
  pose proof (Is x y). pose proof (Is y z). pose proof (Is x z).
  pose proof (It x y z). pose proof (It z y x).
  pose proof (It y z x). pose proof (It z x y).
  pose proof (IH q r).
  destruct (Z.eqb_spec (Precedence.compare_keys x y) 0),
    (Z.eqb_spec (Precedence.compare_keys y z) 0),
    (Z.eqb_spec (Precedence.compare_keys x z) 0); lia.
Qed.

Lemma compare_prerelease_consistent : Consistent Precedence.compare_prerelease.
Proof.
  destruct compare_key_lists_consistent as [Ls Lt].
  constructor.
  - intros [|x p] [|y q]; try reflexivity.
    unfold Precedence.compare_prerelease. apply Ls.
  - intros [|x p] [|y q] [|z r]; try (simpl; lia).
    unfold Precedence.compare_prerelease. apply Lt.
Qed.

(** The order of the specification is consistent. *)
Lemma compare_read_consistent : Consistent Precedence.compare_read.
Proof.
  unfold Precedence.compare_read.
  apply (consistent_or_else
           (fun a b => compare_N (Semver.major a) (Semver.major b))).
  { apply (consistent_on Semver.major), compare_N_consistent. }
  apply (consistent_or_else
           (fun a b => compare_N (Semver.minor a) (Semver.minor b))).
  { apply (consistent_on Semver.minor), compare_N_consistent. }
  apply (consistent_or_else
           (fun a b => compare_N (Semver.patch a) (Semver.patch b))).
  { apply (consistent_on Semver.patch), compare_N_consistent. }
  apply (consistent_on (fun v => map Precedence.key (Semver.prerelease v))),
    compare_prerelease_consistent.
Qed.

Lemma identifiers_eqb_eq p : forall q,
  Semver.identifiers_eqb p q = true -> p = q.
Proof.
  induction p as [|a p IH]; destruct q as [|b q]; simpl;
    try discriminate; auto.
  intros H. apply andb_prop in H as [Hab Hpq].
  apply identifier_eqb_eq in Hab. subst. f_equal. auto.
Qed.

(** *** The package's comparison on safe versions *)

Lemma compareIdentifiers_numbers x y :
  Semver.compareIdentifiers (Semver.Num x) (Semver.Num y) = compare_N x y.
Proof. reflexivity. Qed.

Lemma compareIdentifiers_refl a : Semver.compareIdentifiers a a = 0%Z.
Proof.
  unfold Semver.compareIdentifiers. destruct a as [x|x]; simpl.
  - now rewrite N.eqb_refl.
  - destruct (Semver.numeric x); simpl;
      [now rewrite N.eqb_refl | now rewrite String.eqb_refl].
Qed.

Lemma compareIdentifiers_safe a b :
  safe_identifier a = true -> safe_identifier b = true ->
  Semver.compareIdentifiers a b = Precedence.compare_keys a b.
Proof.
  destruct a as [x|x], b as [y|y]; simpl; intros Ha Hb; try reflexivity.
  - unfold Semver.compareIdentifiers. simpl.
    apply negb_true_iff in Hb. rewrite Hb. reflexivity.
  - unfold Semver.compareIdentifiers. simpl.
    apply negb_true_iff in Ha. rewrite Ha. reflexivity.
  - unfold Semver.compareIdentifiers, compare_string. simpl.
    apply negb_true_iff in Ha, Hb. rewrite Ha, Hb. reflexivity.
Qed.

Lemma key_safe a : safe_identifier a = true -> Precedence.key a = a.
Proof.
  destruct a as [x|x]; simpl; [reflexivity|].
  intros Ha. apply negb_true_iff in Ha. now rewrite Ha.
Qed.

Lemma map_key_safe p :
  forallb safe_identifier p = true -> map Precedence.key p = p.
Proof.
  induction p as [|a p IH]; simpl; [reflexivity|].
  intros H. apply andb_prop in H as [Ha Hp].
  now rewrite (key_safe a Ha), (IH Hp).
Qed.

Lemma comparePre_loop_safe p : forall q,
  forallb safe_identifier p = true -> forallb safe_identifier q = true ->
  Semver.comparePre_loop p q = Precedence.compare_key_lists p q.
Proof.
  induction p as [|a p IH]; intros [|b q] Hp Hq; try reflexivity.
  simpl in Hp, Hq. apply andb_prop in Hp as [Ha Hp].
  apply andb_prop in Hq as [Hb Hq].
  cbn [Semver.comparePre_loop Precedence.compare_key_lists].
  rewrite (compareIdentifiers_safe a b Ha Hb), (IH q Hp Hq).
  unfold Semver.or_else.
  destruct (Semver.identifier_eqb a b) eqn:E.
  - apply identifier_eqb_eq in E. subst.
    now rewrite (proj2 (compare_keys_zero b b) eq_refl).
  - destruct (Z.eqb_spec (Precedence.compare_keys a b) 0) as [H0|]; auto.
    apply compare_keys_zero, identifier_eqb_eq in H0. congruence.
Qed.

Lemma comparePre_loop_refl p : Semver.comparePre_loop p p = 0%Z.
Proof.
  induction p as [|a p IH]; [reflexivity|].
  cbn [Semver.comparePre_loop].
  now rewrite (proj2 (identifier_eqb_eq a a) eq_refl).
Qed.

(** The shortcut on equal [version] strings agrees with the comparison of
    the fields. *)
Lemma SemVer_compare_or_else this other :
  Semver.SemVer_compare this other
  = Semver.or_else (Semver.compareMain this other)
      (Semver.comparePre this other).
Proof.
  unfold Semver.SemVer_compare.
  destruct (Semver.same_version this other) eqn:E; [|reflexivity].
  unfold Semver.same_version in E.
  apply andb_prop in E as [E Hpre]. apply andb_prop in E as [E Hpatch].
  apply andb_prop in E as [Hmajor Hminor].
  apply N.eqb_eq in Hmajor, Hminor, Hpatch.
  apply identifiers_eqb_eq in Hpre.
  unfold Semver.compareMain, Semver.comparePre, Semver.comparePre_arrays.
  rewrite Hmajor, Hminor, Hpatch, Hpre, !compareIdentifiers_refl.
  rewrite comparePre_loop_refl.
  now destruct (Semver.prerelease other).
Qed.

Lemma or_else_assoc a b c :
  Semver.or_else (Semver.or_else a b) c
  = Semver.or_else a (Semver.or_else b c).
Proof.
  unfold Semver.or_else.
  destruct (Z.eqb_spec a 0) as [->|Ha]; [reflexivity|].
  destruct (Z.eqb_spec a 0); [contradiction | reflexivity].
Qed.

(** On safe versions the package compares as the specification orders. *)
Lemma SemVer_compare_safe this other :
  forallb safe_identifier (Semver.prerelease this) = true ->
  forallb safe_identifier (Semver.prerelease other) = true ->
  Semver.SemVer_compare this other = Precedence.compare_read this other.
Proof.
  intros Hthis Hother. rewrite SemVer_compare_or_else.
  unfold Semver.compareMain, Semver.comparePre, Precedence.compare_read.
  rewrite !compareIdentifiers_numbers, !or_else_assoc.
  rewrite (map_key_safe _ Hthis), (map_key_safe _ Hother).
  do 3 f_equal.
  unfold Semver.comparePre_arrays, Precedence.compare_prerelease.
  destruct (Semver.prerelease this) as [|a p] eqn:Ep,
    (Semver.prerelease other) as [|b q] eqn:Eq; try reflexivity.
  apply comparePre_loop_safe; assumption.
Qed.

(** What a sort that returns tells about its comparison function. *)
Section SortReturns.
Context {A : Type} (comparefn : A -> A -> Completion Z) (P : A -> Prop).

Hypothesis comparefn_checks :
  forall a b c, comparefn a b = Normal c -> P a /\ P b.

Lemma sort_insert_permutation x l r :
  JS.sort_insert comparefn x l = Normal r -> Permutation (x :: l) r.
Proof.
  revert r. induction l as [|y l IH]; simpl; intros r Hr.
  - injection Hr as <-. apply Permutation_refl.
  - apply bind_normal in Hr as [c [_ Hr]].
    destruct (c <? 0)%Z.
    + injection Hr as <-. apply Permutation_refl.
    + apply bind_normal in Hr as [r' [Hr' Hr]]. injection Hr as <-.
      eapply perm_trans; [apply perm_swap | apply perm_skip; auto].
Qed.

Lemma sort_insert_checks x y l r :
  JS.sort_insert comparefn x (y :: l) = Normal r -> P x /\ P y.
Proof.
  simpl. intros Hr. apply bind_normal in Hr as [c [Hc _]]. eauto.
Qed.

Lemma sort_from_checks l : forall sorted r,
  sorted <> [] -> Forall P sorted ->
  JS.sort_from comparefn sorted l = Normal r -> Forall P l.
Proof.
  induction l as [|x l IH]; intros sorted r Hne HP Hr; [constructor|].
  simpl in Hr. apply bind_normal in Hr as [s' [Hs' Hr]].
  destruct sorted as [|y sorted]; [contradiction|].
  destruct (sort_insert_checks _ _ _ _ Hs') as [Px _].
  pose proof (sort_insert_permutation _ _ _ Hs') as Hperm.
  constructor; [assumption|].
  apply (IH s' r); auto.
  - intros ->. apply Permutation_sym, Permutation_nil in Hperm. discriminate.
  - rewrite Forall_forall in *. intros z Hz.
    apply (Permutation_in _ (Permutation_sym Hperm)) in Hz.
    destruct Hz as [<-|Hz]; auto.
Qed.

(** Sorting two elements or more compares each of them at least once. *)
Lemma sort_checks x y l r :
  JS.sort comparefn (x :: y :: l) = Normal r -> Forall P (x :: y :: l).
Proof.
  unfold JS.sort.
  change (JS.sort_from comparefn [x] (y :: l) = Normal r ->
          Forall P (x :: y :: l)).
  intros Hr. pose proof Hr as Hr'.
  cbn [JS.sort_from] in Hr'. apply bind_normal in Hr' as [s' [Hs' _]].
  destruct (sort_insert_checks _ _ _ _ Hs') as [_ Px].
  constructor; [assumption|].
  apply (sort_from_checks (y :: l) [x] r); auto. discriminate.
Qed.

End SortReturns.

(* ================================================================== *)
(** ** Latest-version resolution *)

Lemma compare_valid a b va vb :
  Semver.new_SemVer a = Normal va -> Semver.new_SemVer b = Normal vb ->
  Semver.compare a b = Normal (Semver.SemVer_compare va vb).
Proof.
  intros Ha Hb. unfold Semver.compare. now rewrite Ha, Hb.
Qed.

Lemma compare_checks a b c :
  Semver.compare a b = Normal c -> Semver.valid a /\ Semver.valid b.
Proof.
  unfold Semver.compare, Semver.valid. intros H.
  apply bind_normal in H as [va [Ha H]].
  apply bind_normal in H as [vb [Hb _]]. eauto.
Qed.

Lemma rcompare_checks a b c :
  Semver.rcompare a b = Normal c -> Semver.valid a /\ Semver.valid b.
Proof.
  unfold Semver.rcompare. intros H. apply compare_checks in H. tauto.
Qed.

Lemma safe_valid s : safe s -> Semver.valid s.
Proof. intros [v [Hv _]]. exists v. exact Hv. Qed.

(** On safe versions [semver.compare] returns what the order of the
    specification gives. *)
Lemma compare_safe a b :
  safe a -> safe b ->
  exists va vb,
    Semver.new_SemVer a = Normal va /\ Semver.new_SemVer b = Normal vb
    /\ Semver.compare a b = Normal (Precedence.compare_read va vb)
    /\ Precedence.compare a b = Normal (Precedence.compare_read va vb).
Proof.
  intros [va [Ha Hsa]] [vb [Hb Hsb]]. exists va, vb.
  repeat split; auto.
  - rewrite (compare_valid a b va vb Ha Hb).
    now rewrite (SemVer_compare_safe va vb Hsa Hsb).
  - unfold Precedence.compare. now rewrite Ha, Hb.
Qed.

Lemma rcompare_returns a b :
  safe a -> safe b -> exists c, Semver.rcompare a b = Normal c.
Proof.
  intros Ha Hb. unfold Semver.rcompare.
  destruct (compare_safe b a Hb Ha) as [vb [va [_ [_ [H _]]]]]. eauto.
Qed.

Lemma rcompare_swap a b c :
  safe a -> safe b ->
  Semver.rcompare a b = Normal c -> (0 <= c)%Z ->
  before Semver.rcompare b a.
Proof.
  intros Ha Hb. unfold before, Semver.rcompare.
  destruct (compare_safe b a Hb Ha) as [vb [va [Hvb [Hva [Hba _]]]]].
  destruct (compare_safe a b Ha Hb) as [va' [vb' [Hva' [Hvb' [Hab _]]]]].
  rewrite Hva in Hva'. rewrite Hvb in Hvb'.
  injection Hva' as <-. injection Hvb' as <-.
  rewrite Hba, Hab. intros [= <-] Hc. eexists; split; [reflexivity|].
  rewrite (consistent_swap _ compare_read_consistent vb va). lia.
Qed.

Lemma rcompare_before_trans a b c :
  safe a -> safe b -> safe c ->
  before Semver.rcompare a b -> before Semver.rcompare b c ->
  before Semver.rcompare a c.
Proof.
  intros Ha Hb Hc. unfold before, Semver.rcompare.
  destruct (compare_safe b a Hb Ha) as [vb [va [Hvb [Hva [Hba _]]]]].
  destruct (compare_safe c b Hc Hb) as [vc [vb' [Hvc [Hvb' [Hcb _]]]]].
  destruct (compare_safe c a Hc Ha) as [vc' [va' [Hvc' [Hva' [Hca _]]]]].
  rewrite Hvb in Hvb'. rewrite Hvc in Hvc'. rewrite Hva in Hva'.
  injection Hvb' as <-. injection Hvc' as <-. injection Hva' as <-.
  rewrite Hba, Hcb, Hca.
  intros [x [[= <-] Hx]] [y [[= <-] Hy]]. eexists; split; [reflexivity|].
  exact (consistent_trans _ compare_read_consistent vc vb va Hy Hx).
Qed.

Lemma before_rcompare_gte a b :
  safe a -> safe b ->
  before Semver.rcompare a b -> Semver.gte a b /\ Precedence.gte a b.
Proof.
  intros Ha Hb. unfold before, Semver.gte, Precedence.gte, Semver.rcompare.
  destruct (compare_safe b a Hb Ha) as [vb [va [Hvb [Hva [Hba _]]]]].
  destruct (compare_safe a b Ha Hb) as [va' [vb' [Hva' [Hvb' [Hab Hpab]]]]].
  rewrite Hva in Hva'. rewrite Hvb in Hvb'.
  injection Hva' as <-. injection Hvb' as <-.
  rewrite Hba, Hab, Hpab. intros [x [[= <-] Hx]].
  rewrite (consistent_swap _ compare_read_consistent vb va).
  split; eexists; split; try reflexivity; lia.
Qed.

Lemma latestVersion_of_versions versionsOfPackage :
  versionsOfPackage <> [] ->
  Forall safe versionsOfPackage ->
  exists latest,
    Routes.latestVersion versionsOfPackage = Normal (Some latest)
    /\ In latest versionsOfPackage
    /\ forall v, In v versionsOfPackage ->
                 Semver.gte latest v /\ Precedence.gte latest v.
Proof.
  intros Hne Hsafe.
  destruct (sort_head Semver.rcompare safe
              rcompare_returns rcompare_swap rcompare_before_trans
              versionsOfPackage Hne Hsafe) as [h [t [Hsort [Hin Hmax]]]].
  exists h. unfold Routes.latestVersion. rewrite Hsort. simpl.
  repeat split; auto; rewrite Forall_forall in Hsafe;
    apply before_rcompare_gte; auto.
Qed.

(** C2.  From every non-empty list of version strings that [semver]
    accepts and whose numeric pre-release identifiers are all below
    [MAX_SAFE_INTEGER], a latest version is selected; it is one of them and
    its precedence is greater than or equal to that of every member.  From
    1.0.0, 2.0.0, 1.5.3 it is 2.0.0. *)
Theorem latestVersion_greatest :
  (forall versionsOfPackage,
      versionsOfPackage <> [] ->
      Forall safe versionsOfPackage ->
      exists latest,
        Routes.latestVersion versionsOfPackage = Normal (Some latest)
        /\ In latest versionsOfPackage
        /\ forall v, In v versionsOfPackage -> Precedence.gte latest v)
  /\ Routes.latestVersion ["1.0.0"; "2.0.0"; "1.5.3"] = Normal (Some "2.0.0").
Proof.
  split; [|reflexivity].
  intros versions Hne Hsafe.
  destruct (latestVersion_of_versions versions Hne Hsafe)
    as [latest [Hlatest [Hin Hmax]]].
  exists latest. repeat split; auto. intros v Hv. now apply Hmax.
Qed.

Lemma latestVersion_greatest_witness :
  (["1.0.0-rc.1"; "1.0.0"; "0.9.12"] <> []
   /\ Forall safe ["1.0.0-rc.1"; "1.0.0"; "0.9.12"])
  /\ exists latest,
      Routes.latestVersion ["1.0.0-rc.1"; "1.0.0"; "0.9.12"]
      = Normal (Some latest)
      /\ In latest ["1.0.0-rc.1"; "1.0.0"; "0.9.12"]
      /\ forall v, In v ["1.0.0-rc.1"; "1.0.0"; "0.9.12"] ->
                   Precedence.gte latest v.
Proof.
  assert (H : ["1.0.0-rc.1"; "1.0.0"; "0.9.12"] <> []
              /\ Forall safe ["1.0.0-rc.1"; "1.0.0"; "0.9.12"]).
  { split; [discriminate|].
    repeat constructor; eexists; split; vm_compute; reflexivity. }
  split; [exact H|].
  exact (proj1 latestVersion_greatest _ (proj1 H) (proj2 H)).
Defined.

(** Without the bound on numeric pre-release identifiers the selected
    version need not be the greatest.  Both versions below are accepted, and
    the second has the greater precedence, its pre-release identifier being
    the greater number; but the package compares the two identifiers as
    doubles, finds them equal, and the sort leaves the first in front. *)
Lemma latestVersion_not_greatest :
  Routes.latestVersion
    ["1.0.0-9007199254740992"; "1.0.0-9007199254740993"]
  = Normal (Some "1.0.0-9007199254740992")
  /\ Precedence.compare "1.0.0-9007199254740992" "1.0.0-9007199254740993"
     = Normal (-1)%Z
  /\ Semver.compare "1.0.0-9007199254740992" "1.0.0-9007199254740993"
     = Normal 0%Z.
Proof.
  repeat split; vm_compute; reflexivity.
Qed.

(** The lookup of a package with stored versions redirects, with status
    303, to the overview of the version [latestVersion] selects, and writes
    the notice of the redirect as the body. *)
Lemma package_route_redirects packageName rows ctx latest :
  rows <> [] ->
  Routes.latestVersion (map Routes.version rows) = Normal (Some latest) ->
  Routes.package_route packageName rows ctx
  = Normal
      (Routes.mkContext 303
         (Some (Routes.packageOverviewLink packageName latest))
         (Some (Routes.redirect_notice
                  (Routes.packageOverviewLink packageName latest)))).
Proof.
  intros Hne Hlatest. unfold Routes.package_route.
  destruct rows as [|row rows]; [contradiction|].
  simpl List.length. simpl Nat.eqb. cbv iota.
  rewrite Hlatest. reflexivity.
Qed.

(** C10.  There is a non-empty version list with a member that is not
    parsable as a semantic version on which sorting with [semver.rcompare]
    throws: the lookup completes with the error, so it neither redirects
    nor answers not-found. *)
Theorem latestVersion_unparsable_throws :
  exists versionsOfPackage,
    versionsOfPackage <> []
    /\ (exists v, In v versionsOfPackage /\ ~ Semver.valid v)
    /\ Routes.latestVersion versionsOfPackage
       = Throw (TypeError "Invalid Version: not-a-version")
    /\ forall packageName ctx,
        Routes.package_route packageName
          (map Routes.mkVersionRow versionsOfPackage) ctx
        = Throw (TypeError "Invalid Version: not-a-version").
Proof.
  exists ["1.0.0"; "not-a-version"]. split; [discriminate|]. split.
  - exists "not-a-version". split; [simpl; auto|].
    intros [v Hv]. vm_compute in Hv. discriminate.
  - split; reflexivity.
Qed.

(* ================================================================== *)
(** ** Symbol resolution *)

Section FindByName.
Context {A : Type} `{Routes.Named A}.

Lemma findByName_first (l : list A) n d :
  first_named l n d -> Routes.findByName l n = Some d.
Proof.
  intros [l1 [l2 [-> [Hd Hl1]]]]. unfold Routes.findByName.
  induction l1 as [|e l1 IH]; simpl.
  - apply String.eqb_eq in Hd. now rewrite Hd.
  - inversion Hl1 as [|? ? He Hl1']; subst.
    apply String.eqb_neq in He. rewrite He. auto.
Qed.

Lemma findByName_none (l : list A) n :
  none_named l n -> Routes.findByName l n = None.
Proof.
  unfold none_named, Routes.findByName.
  induction 1 as [|e l He _ IH]; simpl; [reflexivity|].
  apply String.eqb_neq in He. now rewrite He.
Qed.

Lemma first_named_or_none (l : list A) n :
  (exists d, first_named l n d) \/ none_named l n.
Proof.
  induction l as [|e l [[d [l1 [l2 [-> [Hd Hl1]]]]]|Hnone]].
  - right. constructor.
  - destruct (String.eqb_spec (Routes.name_of e) n) as [He|He].
    + left. exists e, [], (l1 ++ d :: l2). repeat split; auto.
    + left. exists d, (e :: l1), l2. repeat split; auto.
  - destruct (String.eqb_spec (Routes.name_of e) n) as [He|He].
    + left. exists e, [], l. repeat split; auto.
    + right. constructor; auto.
Qed.

Lemma named_has_first (l : list A) n d :
  In d l -> Routes.name_of d = n -> exists d', first_named l n d'.
Proof.
  intros Hin Hd. destruct (first_named_or_none l n) as [Hf|Hnone]; auto.
  unfold none_named in Hnone. rewrite Forall_forall in Hnone.
  now apply Hnone in Hin.
Qed.

End FindByName.

(** C7.  Resolution of a name searches values, then binops, then unions,
    then aliases, and builds its node from the first record whose [name] is
    the queried string itself (so neither a name in another case nor an
    untrimmed one matches); a name found in no table gives no node, and a
    name that both values and binops hold resolves to the values record. *)
Theorem constructValue_first_match_in_table_order :
  forall (markdown_render : string -> string)
         (moduleInfo : Routes.ModuleInfo) (name : string),
    (forall d, first_named (Routes.values moduleInfo) name d ->
       Routes.constructValue markdown_render moduleInfo name
       = Some (Routes.Value name (markdown_render (Routes.v_comment d))
                 (Routes.v_type d)))
    /\ (forall d, none_named (Routes.values moduleInfo) name ->
          first_named (Routes.binops moduleInfo) name d ->
          Routes.constructValue markdown_render moduleInfo name
          = Some (Routes.Binop name (markdown_render (Routes.b_comment d))
                    (Routes.b_type d)))
    /\ (forall d, none_named (Routes.values moduleInfo) name ->
          none_named (Routes.binops moduleInfo) name ->
          first_named (Routes.unions moduleInfo) name d ->
          Routes.constructValue markdown_render moduleInfo name
          = Some (Routes.Union name (markdown_render (Routes.u_comment d))
                    (Routes.u_args d) (Routes.u_tags d)))
    /\ (forall d, none_named (Routes.values moduleInfo) name ->
          none_named (Routes.binops moduleInfo) name ->
          none_named (Routes.unions moduleInfo) name ->
          first_named (Routes.aliases moduleInfo) name d ->
          Routes.constructValue markdown_render moduleInfo name
          = Some (Routes.Alias name (markdown_render (Routes.a_comment d))
                    (Routes.a_args d) (Routes.a_type d)))
    /\ (none_named (Routes.values moduleInfo) name ->
        none_named (Routes.binops moduleInfo) name ->
        none_named (Routes.unions moduleInfo) name ->
        none_named (Routes.aliases moduleInfo) name ->
        Routes.constructValue markdown_render moduleInfo name = None)
    /\ (forall v b, In v (Routes.values moduleInfo) -> Routes.v_name v = name ->
          In b (Routes.binops moduleInfo) -> Routes.b_name b = name ->
          exists d, first_named (Routes.values moduleInfo) name d
                    /\ Routes.constructValue markdown_render moduleInfo name
                       = Some (Routes.Value name
                                 (markdown_render (Routes.v_comment d))
                                 (Routes.v_type d)))
    /\ Routes.constructValue markdown_render Examples.module_shadowed "Foo"
       = None
    /\ Routes.constructValue markdown_render Examples.module_shadowed " foo"
       = None.
Proof.
  intros render m n.
  split; [|split; [|split; [|split; [|split; [|split; [|split]]]]]];
    try reflexivity; unfold Routes.constructValue.
  - intros d Hd. now rewrite (findByName_first _ _ _ Hd).
  - intros d Hv Hd.
    now rewrite (findByName_none _ _ Hv), (findByName_first _ _ _ Hd).
  - intros d Hv Hb Hd.
    now rewrite (findByName_none _ _ Hv), (findByName_none _ _ Hb),
      (findByName_first _ _ _ Hd).
  - intros d Hv Hb Hu Hd.
    now rewrite (findByName_none _ _ Hv), (findByName_none _ _ Hb),
      (findByName_none _ _ Hu), (findByName_first _ _ _ Hd).
  - intros Hv Hb Hu Ha.
    now rewrite (findByName_none _ _ Hv), (findByName_none _ _ Hb),
      (findByName_none _ _ Hu), (findByName_none _ _ Ha).
  - intros v b Hv Hvn _ _.
    destruct (named_has_first (H := Routes.Named_value) _ _ _ Hv Hvn)
      as [d Hd].
    exists d. split; [assumption|].
    now rewrite (findByName_first _ _ _ Hd).
Qed.

Lemma constructValue_first_match_in_table_order_witness :
  (In Examples.foo (Routes.values Examples.module_shadowed)
   /\ Routes.v_name Examples.foo = "foo"
   /\ In (Routes.mkBinopData "foo" "The operator." "Int -> Int -> Int")
        (Routes.binops Examples.module_shadowed))
  /\ exists d,
      first_named (Routes.values Examples.module_shadowed) "foo" d
      /\ Routes.constructValue Examples.render_paragraph
           Examples.module_shadowed "foo"
         = Some (Routes.Value "foo"
                   (Examples.render_paragraph (Routes.v_comment d))
                   (Routes.v_type d)).
Proof.
  split.
  - simpl. auto.
  - apply (proj1 (proj2 (proj2 (proj2 (proj2 (proj2
             (constructValue_first_match_in_table_order
                Examples.render_paragraph Examples.module_shadowed "foo"))))))
             Examples.foo
             (Routes.mkBinopData "foo" "The operator." "Int -> Int -> Int"));
      simpl; auto.
Defined.

(* ================================================================== *)
(** ** The module index *)

Lemma hex_digit_unreserved c :
  JS.unreserved (JS.hex_digit (N_of_ascii c / 16)) = true
  /\ JS.unreserved (JS.hex_digit (N_of_ascii c mod 16)) = true.
Proof.
  destruct c as [[] [] [] [] [] [] [] []]; split; reflexivity.
Qed.

Lemma all_chars_app p s t :
  JS.all_chars p (s ++ t) = JS.all_chars p s && JS.all_chars p t.
Proof.
  induction s as [|c s IH]; simpl; [reflexivity|].
  now rewrite IH, andb_assoc.
Qed.

Lemma encodeURIComponent_url_safe s :
  url_safe (JS.encodeURIComponent s) = true.
Proof.
  unfold url_safe. induction s as [|c s IH]; simpl; [reflexivity|].
  rewrite all_chars_app, IH, andb_true_r.
  destruct (JS.unreserved c) eqn:Hc; simpl.
  - now rewrite Hc.
  - destruct (hex_digit_unreserved c) as [Hhi Hlo]. now rewrite Hhi, Hlo.
Qed.

Lemma encodeURIComponent_unreserved s :
  JS.all_chars JS.unreserved s = true -> JS.encodeURIComponent s = s.
Proof.
  induction s as [|c s IH]; simpl; [reflexivity|].
  intros H. apply andb_prop in H as [Hc Hs]. rewrite Hc, (IH Hs). reflexivity.
Qed.

(** C8.  A flat list of exposed modules is normalised to the single group
    keyed by the empty string, one link per module in the order of the
    list; a link is the path made of the package name, the version and the
    module name, each passed through [encodeURIComponent] on its own,
    whatever characters it holds.  The encoding leaves only unreserved marks
    and [%] escapes. *)
Theorem prepareExposedModulesView_flat_list :
  (forall packageName version modules,
      Routes.prepareExposedModulesView packageName version
        (Routes.mkMetadata (Routes.ModuleList modules))
      = [(EmptyString,
          Routes.Links
            (map (fun moduleName =>
                    Routes.mkModuleLink moduleName
                      ("/package/" ++ JS.encodeURIComponent packageName
                         ++ "/version/" ++ JS.encodeURIComponent version
                         ++ "/module/" ++ JS.encodeURIComponent moduleName)%string)
               modules))])
  /\ (forall segment, url_safe (JS.encodeURIComponent segment) = true)
  /\ Routes.prepareExposedModulesView "gren-lang/core" "1.0.0"
       (Routes.mkMetadata (Routes.ModuleList ["A.B"; "C"]))
     = [(EmptyString,
         Routes.Links
           [Routes.mkModuleLink "A.B"
              "/package/gren-lang%2Fcore/version/1.0.0/module/A.B";
            Routes.mkModuleLink "C"
              "/package/gren-lang%2Fcore/version/1.0.0/module/C"])].
Proof.
  split; [|split].
  - intros. reflexivity.
  - apply encodeURIComponent_url_safe.
  - reflexivity.
Qed.

Lemma obj_has_app {V : Type} k (v0 : V) l1 l2 :
  JS.obj_has k (l1 ++ (k, v0) :: l2) = true.
Proof.
  unfold JS.obj_has. rewrite existsb_app. simpl.
  rewrite String.eqb_refl. now rewrite orb_true_r.
Qed.

Lemma obj_replace_app {V : Type} k (v v0 : V) l1 l2 :
  ~ In k (map fst l1) ->
  JS.obj_replace k v (l1 ++ (k, v0) :: l2) = l1 ++ (k, v) :: l2.
Proof.
  induction l1 as [|[k' v'] l1 IH]; simpl; intros Hk.
  - now rewrite String.eqb_refl.
  - destruct (String.eqb_spec k' k) as [->|Hne]; [tauto|].
    rewrite IH; tauto.
Qed.

(** The loop of [prepareExposedModulesView], after the entries [done] and
    before the entries [todo]. *)
Lemma index_loop packageName version (todo : list (string * list string)) :
  forall done,
    NoDup (map fst (done ++ todo)) ->
    fold_left
      (fun (o : JS.Obj Routes.IndexEntry) (entry : string * list string) =>
         let '(key, value) := entry in
         JS.obj_set key
           (Routes.Links
              (map (fun module =>
                      Routes.prepareModuleForView packageName version module)
                 value))
           o)
      todo
      (map (fun entry =>
              (fst entry,
               Routes.Links
                 (map (Routes.prepareModuleForView packageName version)
                    (snd entry))))
         done
       ++ map (fun entry => (fst entry, Routes.Names (snd entry))) todo)
    = map (fun entry =>
             (fst entry,
              Routes.Links
                (map (Routes.prepareModuleForView packageName version)
                   (snd entry))))
        (done ++ todo).
Proof.
  induction todo as [|[key value] todo IH]; intros done Hnodup.
  - simpl. now rewrite !app_nil_r.
  - simpl fold_left. simpl map at 3. simpl fst. simpl snd.
    unfold JS.obj_set at 2. rewrite obj_has_app, obj_replace_app.
    + specialize (IH (done ++ [(key, value)])).
      rewrite (map_app _ done [(key, value)]) in IH.
      rewrite <- !app_assoc in IH. apply IH. exact Hnodup.
    + rewrite map_map. simpl.
      rewrite map_app in Hnodup. simpl in Hnodup.
      apply NoDup_remove_2 in Hnodup.
      intros Hin. apply Hnodup. apply in_or_app. now left.
Qed.

Lemma prepareExposedModulesView_groups packageName version groups :
  NoDup (map fst groups) ->
  Routes.prepareExposedModulesView packageName version
    (Routes.mkMetadata (Routes.ModuleGroups groups))
  = map (fun entry =>
           (fst entry,
            Routes.Links
              (map (Routes.prepareModuleForView packageName version)
                 (snd entry))))
      groups.
Proof.
  intros Hnodup. unfold Routes.prepareExposedModulesView, JS.entries. simpl.
  exact (index_loop packageName version groups [] Hnodup).
Qed.

(** C9.  On the mapping form, the normalised index has the groups of the
    input in their order, and in each group one link per module name, in the
    order of the names; so for Core: A and Extra: B, C. *)
Theorem prepareExposedModulesView_preserves_order :
  (forall packageName version groups,
      NoDup (map fst groups) ->
      map fst
        (Routes.prepareExposedModulesView packageName version
           (Routes.mkMetadata (Routes.ModuleGroups groups)))
      = map fst groups
      /\ forall i key modules,
          nth_error groups i = Some (key, modules) ->
          exists links,
            nth_error
              (Routes.prepareExposedModulesView packageName version
                 (Routes.mkMetadata (Routes.ModuleGroups groups))) i
            = Some (key, Routes.Links links)
            /\ map Routes.link_name links = modules)
  /\ (forall packageName version,
         exists a b c,
           Routes.prepareExposedModulesView packageName version
             (Routes.mkMetadata (Routes.ModuleGroups Examples.groups))
           = [("Core", Routes.Links [Routes.mkModuleLink "A" a]);
              ("Extra", Routes.Links [Routes.mkModuleLink "B" b;
                                      Routes.mkModuleLink "C" c])]).
Proof.
  split.
  - intros packageName version groups Hnodup.
    rewrite (prepareExposedModulesView_groups _ _ _ Hnodup). split.
    + rewrite map_map. reflexivity.
    + intros i key modules Hi.
      exists (map (Routes.prepareModuleForView packageName version) modules).
      split.
      * rewrite nth_error_map, Hi. reflexivity.
      * rewrite map_map. simpl. apply map_id.
  - intros. do 3 eexists. reflexivity.
Qed.

Lemma prepareExposedModulesView_preserves_order_witness :
  NoDup (map fst Examples.groups)
  /\ map fst
       (Routes.prepareExposedModulesView "gren-lang/core" "1.0.0"
          (Routes.mkMetadata (Routes.ModuleGroups Examples.groups)))
     = map fst Examples.groups
  /\ forall i key modules,
      nth_error Examples.groups i = Some (key, modules) ->
      exists links,
        nth_error
          (Routes.prepareExposedModulesView "gren-lang/core" "1.0.0"
             (Routes.mkMetadata (Routes.ModuleGroups Examples.groups))) i
        = Some (key, Routes.Links links)
        /\ map Routes.link_name links = modules.
Proof.
  assert (H : NoDup (map fst Examples.groups)).
  { simpl. repeat constructor; simpl; intuition discriminate. }
  split; [exact H|].
  exact (proj1 prepareExposedModulesView_preserves_order
           "gren-lang/core" "1.0.0" Examples.groups H).
Defined.

(* ================================================================== *)
(** ** Splitting strings *)

Lemma append_nil_r (s : string) : (s ++ EmptyString)%string = s.
Proof. induction s as [|c s IH]; simpl; [reflexivity | now rewrite IH]. Qed.

Lemma append_assoc (s t u : string) :
  ((s ++ t) ++ u)%string = (s ++ t ++ u)%string.
Proof. induction s as [|c s IH]; simpl; [reflexivity | now rewrite IH]. Qed.

Lemma prefix_append sep s :
  prefix sep s = true <-> exists q, s = (sep ++ q)%string.
Proof.
  revert s. induction sep as [|c sep IH]; intros s.
  - destruct s; simpl; split; eauto.
  - destruct s as [|a s]; simpl.
    + split; [discriminate | intros [q Hq]; discriminate].
    + destruct (ascii_dec c a) as [->|Hne].
      * rewrite IH. split; intros [q Hq]; exists q; [now subst | now inversion Hq].
      * split; [discriminate | intros [q Hq]; congruence].
Qed.

Lemma occurs_empty sep : sep <> EmptyString -> ~ occurs sep EmptyString.
Proof.
  intros Hsep [p [q Hpq]]. destruct p; [|discriminate].
  destruct sep; [contradiction | discriminate].
Qed.

Lemma occurs_cons sep a s :
  occurs sep (String a s) <-> prefix sep (String a s) = true \/ occurs sep s.
Proof.
  split.
  - intros [[|c p] [q Hpq]].
    + left. apply prefix_append. eauto.
    + right. inversion Hpq. exists p, q. reflexivity.
  - intros [Hpre|[p [q Hpq]]].
    + apply prefix_append in Hpre as [q Hq]. exists EmptyString, q. exact Hq.
    + exists (String a p), q. simpl. now rewrite Hpq.
Qed.

Lemma occursb_spec sep s : occurs sep s <-> occursb sep s = true.
Proof.
  induction s as [|a s IH].
  - cbn [occursb]. rewrite orb_false_r. split.
    + intros [p [q Hpq]]. apply prefix_append. exists EmptyString.
      destruct p; [|discriminate]. destruct sep; [reflexivity|discriminate].
    + intros Hpre. apply prefix_append in Hpre as [q Hq].
      exists EmptyString, q. exact Hq.
  - rewrite occurs_cons, IH. cbn [occursb]. rewrite orb_true_iff. tauto.
Qed.

Lemma split_go_nonempty sep s : forall skip acc,
  JS.split_go sep skip acc s <> [].
Proof.
  induction s as [|a s IH]; intros skip acc; cbn [JS.split_go];
    [discriminate|].
  destruct skip; [|apply IH].
  destruct (prefix sep (String a s)); [discriminate | apply IH].
Qed.

Lemma split_ws_go_nonempty s : forall skip inws acc,
  JS.split_ws_go skip inws acc s <> [].
Proof.
  induction s as [|a s IH]; intros skip inws acc; cbn [JS.split_ws_go];
    [discriminate|].
  destruct skip; [|apply IH].
  destruct (JS.ws_width (String a s)); [apply IH|].
  destruct inws; [apply IH | discriminate].
Qed.

(** The first piece of a split is the text before the first occurrence of
    the separator, and the only piece when the separator does not occur. *)
Lemma split_go_first sep :
  sep <> EmptyString ->
  forall s acc,
  exists intro rest,
    JS.split_go sep 0 acc s = (acc ++ intro)%string :: rest
    /\ text_before_first sep s intro
    /\ (~ occurs sep s -> rest = []).
Proof.
  intros Hsep. induction s as [|a s IH]; intros acc.
  - exists EmptyString, []. simpl. rewrite append_nil_r.
    repeat split; auto. left. split; [now apply occurs_empty | reflexivity].
  - cbn [JS.split_go]. destruct (prefix sep (String a s)) eqn:Hpre.
    + exists EmptyString. eexists. rewrite append_nil_r.
      split; [reflexivity|]. split.
      * right. apply prefix_append in Hpre as [q Hq]. exists q.
        split; [exact Hq|]. intros; simpl; lia.
      * intros Hno. exfalso. apply Hno. apply occurs_cons. now left.
    + destruct (IH (acc ++ String a EmptyString)%string)
        as [intro [rest [Hsplit [Hbefore Hrest]]]].
      exists (String a intro), rest. rewrite Hsplit, append_assoc. simpl.
      split; [reflexivity|]. split.
      * destruct Hbefore as [[Hno ->]|[q [Hq Hmin]]].
        -- left. split; [|reflexivity]. rewrite occurs_cons.
           intros [H|H]; [congruence | contradiction].
        -- right. exists q. split; [simpl; now rewrite <- Hq|].
           intros [|c p'] q' Hpq.
           ++ assert (prefix sep (String a s) = true)
                by (apply prefix_append; eauto).
              congruence.
           ++ inversion Hpq; subst. simpl. apply le_n_S. eapply Hmin. eauto.
      * intros Hno. apply Hrest. intros Hs. apply Hno.
        apply occurs_cons. now right.
Qed.

Lemma split_first sep s :
  sep <> EmptyString ->
  exists intro rest,
    JS.split sep s = intro :: rest
    /\ text_before_first sep s intro
    /\ (~ occurs sep s -> rest = []).
Proof.
  intros Hsep. exact (split_go_first sep Hsep s EmptyString).
Qed.

(* ================================================================== *)
(** ** Documentation of a module *)

Lemma constructValue_not_markdown markdown_render moduleInfo name html :
  Routes.constructValue markdown_render moduleInfo name
  <> Some (Routes.Markdown html).
Proof.
  unfold Routes.constructValue.
  destruct (Routes.findByName (Routes.values moduleInfo) name);
    [discriminate|].
  destruct (Routes.findByName (Routes.binops moduleInfo) name);
    [discriminate|].
  destruct (Routes.findByName (Routes.unions moduleInfo) name);
    [discriminate|].
  destruct (Routes.findByName (Routes.aliases moduleInfo) name);
    discriminate.
Qed.

(** Every comma-separated block yields at least the slot of its symbol:
    [words] is never empty. *)
Lemma block_nodes_first markdown_render moduleInfo block :
  exists firstWord more,
    Routes.block_nodes markdown_render moduleInfo block
    = Routes.constructValue markdown_render moduleInfo firstWord :: more.
Proof.
  unfold Routes.block_nodes.
  destruct (JS.split_ws (JS.trim block)) as [|firstWord words] eqn:Hwords.
  - exfalso. revert Hwords. apply split_ws_go_nonempty.
  - exists firstWord.
    destruct (List.length (firstWord :: words) =? 1)%nat; eauto.
Qed.

Lemma parts_first markdown_render moduleInfo (blocks : list string) :
  flat_map (Routes.block_nodes markdown_render moduleInfo)
    (flat_map (fun p => JS.split "," p) blocks) = []
  \/ exists firstWord more,
      flat_map (Routes.block_nodes markdown_render moduleInfo)
        (flat_map (fun p => JS.split "," p) blocks)
      = Routes.constructValue markdown_render moduleInfo firstWord :: more.
Proof.
  destruct blocks as [|b blocks]; [now left|]. right. simpl.
  destruct (JS.split "," b) as [|x xs] eqn:Hsplit.
  - exfalso. revert Hsplit. apply split_go_nonempty.
  - simpl.
    destruct (block_nodes_first markdown_render moduleInfo x)
      as [firstWord [more Hx]].
    rewrite Hx. simpl. eauto.
Qed.

(** C6.  The documentation of every module is an array that begins with
    the prose node of the intro, the comment up to its first
    ["\n@docs"], whether or not the intro is empty; what follows it, if
    anything, does not begin with a prose node; and a comment without the
    delimiter gives that one node alone, made of the whole comment. *)
Theorem prepareModuleDocumentation_intro :
  forall (markdown_render : string -> string) (moduleInfo : Routes.ModuleInfo),
  exists intro parts,
    Routes.prepareModuleDocumentation markdown_render moduleInfo
    = Routes.Nodes (Some (Routes.Markdown (markdown_render intro)) :: parts)
    /\ text_before_first Routes.docs_delimiter (Routes.comment moduleInfo) intro
    /\ (forall html more, parts <> Some (Routes.Markdown html) :: more)
    /\ (~ occurs Routes.docs_delimiter (Routes.comment moduleInfo) ->
        intro = Routes.comment moduleInfo /\ parts = []).
Proof.
  intros render m. unfold Routes.prepareModuleDocumentation.
  destruct (split_first Routes.docs_delimiter (Routes.comment m))
    as [intro [rest [Hsplit [Hbefore Hrest]]]]; [discriminate|].
  rewrite Hsplit. exists intro. eexists. split; [reflexivity|].
  split; [exact Hbefore|]. split.
  - intros html more.
    destruct (parts_first render m rest) as [->|[w [tl ->]]]; [discriminate|].
    intros [= H _]. revert H. apply constructValue_not_markdown.
  - intros Hno. rewrite (Hrest Hno). split; [|reflexivity].
    destruct Hbefore as [[_ ->]|[q [Hq _]]]; [reflexivity|].
    exfalso. apply Hno. exists intro, q. exact Hq.
Qed.

Lemma prepareModuleDocumentation_intro_witness :
  ~ occurs Routes.docs_delimiter (Routes.comment Examples.module_shadowed)
  /\ Routes.prepareModuleDocumentation Examples.render_paragraph
       Examples.module_shadowed
     = Routes.Nodes
         [Some (Routes.Markdown (Examples.render_paragraph "Intro."))].
Proof.
  assert (Hno : ~ occurs Routes.docs_delimiter
                    (Routes.comment Examples.module_shadowed)).
  { rewrite occursb_spec. discriminate. }
  split; [exact Hno|].
  destruct (prepareModuleDocumentation_intro Examples.render_paragraph
              Examples.module_shadowed)
    as [intro [parts [Hdocs [_ [_ Hwhole]]]]].
  destruct (Hwhole Hno) as [Hintro Hparts].
  rewrite Hdocs, Hintro, Hparts. reflexivity.
Defined.

Lemma constructValue_value markdown_render moduleInfo name d :
  Routes.findByName (Routes.values moduleInfo) name = Some d ->
  Routes.constructValue markdown_render moduleInfo name
  = Some (Routes.Value name (markdown_render (Routes.v_comment d))
            (Routes.v_type d)).
Proof.
  intros Hd. unfold Routes.constructValue. now rewrite Hd.
Qed.

Lemma block_nodes_name_only markdown_render moduleInfo block firstWord :
  JS.split_ws (JS.trim block) = [firstWord] ->
  Routes.block_nodes markdown_render moduleInfo block
  = [Routes.constructValue markdown_render moduleInfo firstWord].
Proof.
  intros Hwords. unfold Routes.block_nodes. now rewrite Hwords.
Qed.

Lemma block_nodes_name_and_prose markdown_render moduleInfo block
      firstWord word words :
  JS.split_ws (JS.trim block) = firstWord :: word :: words ->
  Routes.block_nodes markdown_render moduleInfo block
  = [Routes.constructValue markdown_render moduleInfo firstWord;
     Some (Routes.Markdown
             (markdown_render
                (JS.slice (String.length firstWord) (JS.trimLeft block))))].
Proof.
  intros Hwords. unfold Routes.block_nodes. now rewrite Hwords.
Qed.

(** A block that is empty once trimmed still has one word, the empty one:
    the guard on [words.length === 0] never fires, and the block yields
    the slot of the symbol named by the empty string. *)
Lemma block_nodes_blank markdown_render moduleInfo block :
  JS.trim block = EmptyString ->
  Routes.block_nodes markdown_render moduleInfo block
  = [Routes.constructValue markdown_render moduleInfo EmptyString].
Proof.
  intros Hblank. apply block_nodes_name_only. now rewrite Hblank.
Qed.

(** A name that no table holds leaves its slot [undefined]; the block
    yields that slot, followed by its prose if it has more words. *)
Lemma block_nodes_unresolved markdown_render moduleInfo block firstWord words :
  JS.split_ws (JS.trim block) = firstWord :: words ->
  none_named (Routes.values moduleInfo) firstWord ->
  none_named (Routes.binops moduleInfo) firstWord ->
  none_named (Routes.unions moduleInfo) firstWord ->
  none_named (Routes.aliases moduleInfo) firstWord ->
  exists more,
    Routes.block_nodes markdown_render moduleInfo block = None :: more
    /\ (more = []
        \/ more = [Some (Routes.Markdown
                           (markdown_render
                              (JS.slice (String.length firstWord)
                                 (JS.trimLeft block))))]).
Proof.
  intros Hwords Hv Hb Hu Ha. unfold Routes.block_nodes. rewrite Hwords.
  unfold Routes.constructValue.
  rewrite (findByName_none _ _ Hv), (findByName_none _ _ Hb),
    (findByName_none _ _ Hu), (findByName_none _ _ Ha).
  destruct (List.length (firstWord :: words) =? 1)%nat; eauto.
Qed.

(** C4.  On ["Intro text.\n@docs foo\nMore text.\n@docs bar, baz"], with
    foo, bar and baz in the values table, the documentation is the prose of
    the intro, the value foo, the prose after foo, the value bar and the
    value baz, and nothing after baz.  The prose after foo is rendered from
    the rest of its block, which starts at the line break; a renderer that
    renders it as it renders ["More text."] gives the prose node of
    ["More text."]. *)
Theorem prepareModuleDocumentation_foo_bar_baz :
  forall (markdown_render : string -> string)
         (moduleInfo : Routes.ModuleInfo) (foo bar baz : Routes.ValueData),
    Routes.comment moduleInfo = Examples.comment_foo_bar_baz ->
    first_named (Routes.values moduleInfo) "foo" foo ->
    first_named (Routes.values moduleInfo) "bar" bar ->
    first_named (Routes.values moduleInfo) "baz" baz ->
    Routes.prepareModuleDocumentation markdown_render moduleInfo
    = Routes.Nodes
        [Some (Routes.Markdown (markdown_render "Intro text."));
         Some (Routes.Value "foo" (markdown_render (Routes.v_comment foo))
                 (Routes.v_type foo));
         Some (Routes.Markdown
                 (markdown_render (Examples.nl ++ "More text.")%string));
         Some (Routes.Value "bar" (markdown_render (Routes.v_comment bar))
                 (Routes.v_type bar));
         Some (Routes.Value "baz" (markdown_render (Routes.v_comment baz))
                 (Routes.v_type baz))]
    /\ (markdown_render (Examples.nl ++ "More text.")%string
        = markdown_render "More text." ->
        Routes.prepareModuleDocumentation markdown_render moduleInfo
        = Routes.Nodes
            [Some (Routes.Markdown (markdown_render "Intro text."));
             Some (Routes.Value "foo" (markdown_render (Routes.v_comment foo))
                     (Routes.v_type foo));
             Some (Routes.Markdown (markdown_render "More text."));
             Some (Routes.Value "bar" (markdown_render (Routes.v_comment bar))
                     (Routes.v_type bar));
             Some (Routes.Value "baz" (markdown_render (Routes.v_comment baz))
                     (Routes.v_type baz))]).
Proof.
  intros render m foo bar baz Hcomment Hfoo Hbar Hbaz.
  apply findByName_first in Hfoo, Hbar, Hbaz.
  assert (Hdocs :
    Routes.prepareModuleDocumentation render m
    = Routes.Nodes
        [Some (Routes.Markdown (render "Intro text."));
         Some (Routes.Value "foo" (render (Routes.v_comment foo))
                 (Routes.v_type foo));
         Some (Routes.Markdown (render (Examples.nl ++ "More text.")%string));
         Some (Routes.Value "bar" (render (Routes.v_comment bar))
                 (Routes.v_type bar));
         Some (Routes.Value "baz" (render (Routes.v_comment baz))
                 (Routes.v_type baz))]).
  { unfold Routes.prepareModuleDocumentation. rewrite Hcomment.
    replace (JS.split Routes.docs_delimiter Examples.comment_foo_bar_baz)
      with ["Intro text."; (" foo" ++ Examples.nl ++ "More text.")%string;
            " bar, baz"] by reflexivity.
    cbn [flat_map].
    replace (JS.split "," (" foo" ++ Examples.nl ++ "More text.")%string)
      with [(" foo" ++ Examples.nl ++ "More text.")%string] by reflexivity.
    replace (JS.split "," " bar, baz") with [" bar"; " baz"] by reflexivity.
    cbn [app flat_map].
    rewrite (block_nodes_name_and_prose render m _ "foo" "More" ["text."])
      by reflexivity.
    rewrite (block_nodes_name_only render m " bar" "bar") by reflexivity.
    rewrite (block_nodes_name_only render m " baz" "baz") by reflexivity.
    rewrite (constructValue_value render m "foo" foo Hfoo),
      (constructValue_value render m "bar" bar Hbar),
      (constructValue_value render m "baz" baz Hbaz).
    reflexivity. }
  split; [exact Hdocs|].
  intros Hrender. rewrite Hdocs, Hrender. reflexivity.
Qed.

Lemma prepareModuleDocumentation_foo_bar_baz_witness :
  (Routes.comment Examples.module_foo_bar_baz = Examples.comment_foo_bar_baz
   /\ first_named (Routes.values Examples.module_foo_bar_baz) "foo" Examples.foo
   /\ first_named (Routes.values Examples.module_foo_bar_baz) "bar" Examples.bar
   /\ first_named (Routes.values Examples.module_foo_bar_baz) "baz" Examples.baz
   /\ Examples.render_paragraph (Examples.nl ++ "More text.")%string
      = Examples.render_paragraph "More text.")
  /\ Routes.prepareModuleDocumentation Examples.render_paragraph
       Examples.module_foo_bar_baz
     = Routes.Nodes
         [Some (Routes.Markdown (Examples.render_paragraph "Intro text."));
          Some (Routes.Value "foo" (Examples.render_paragraph "The foo.") "Int");
          Some (Routes.Markdown (Examples.render_paragraph "More text."));
          Some (Routes.Value "bar" (Examples.render_paragraph "The bar.")
                  "String");
          Some (Routes.Value "baz" (Examples.render_paragraph "The baz.")
                  "Int -> Int")].
Proof.
  assert (Hfoo : first_named (Routes.values Examples.module_foo_bar_baz)
                   "foo" Examples.foo).
  { exists [], [Examples.bar; Examples.baz]. repeat split. constructor. }
  assert (Hbar : first_named (Routes.values Examples.module_foo_bar_baz)
                   "bar" Examples.bar).
  { exists [Examples.foo], [Examples.baz]. repeat split.
    repeat constructor. discriminate. }
  assert (Hbaz : first_named (Routes.values Examples.module_foo_bar_baz)
                   "baz" Examples.baz).
  { exists [Examples.foo; Examples.bar], []. repeat split.
    repeat constructor; discriminate. }
  split; [repeat split; auto|].
  exact (proj2 (prepareModuleDocumentation_foo_bar_baz
                  Examples.render_paragraph Examples.module_foo_bar_baz
                  Examples.foo Examples.bar Examples.baz
                  eq_refl Hfoo Hbar Hbaz)
           eq_refl).
Defined.

(** C5.  The comment ["Intro.\n@docs foo, "] lists foo and then a
    sub-block that is empty once trimmed.  That sub-block does contribute
    to the array: an [undefined] element follows the node of foo.  Where a
    table holds a record named by the empty string, every such sub-block
    contributes the node of that record. *)
Theorem prepareModuleDocumentation_blank_block :
  forall markdown_render : string -> string,
    Routes.prepareModuleDocumentation markdown_render
      Examples.module_trailing_comma
    = Routes.Nodes
        [Some (Routes.Markdown (markdown_render "Intro."));
         Some (Routes.Value "foo" (markdown_render "The foo.") "Int");
         None]
    /\ Routes.prepareModuleDocumentation markdown_render
         Examples.module_unnamed
       = Routes.Nodes
           [Some (Routes.Markdown (markdown_render "Intro."));
            Some (Routes.Value EmptyString (markdown_render "Unnamed.") "Int");
            Some (Routes.Value EmptyString (markdown_render "Unnamed.") "Int")].
Proof.
  intros render. split; reflexivity.
Qed.

(* ================================================================== *)
(** ** Route handlers *)

(** A package without stored versions is answered with status 404 and no
    body. *)
Lemma package_route_no_versions packageName ctx :
  Routes.package_route packageName [] ctx
  = Normal (Routes.mkContext 404 (Routes.location ctx) (Routes.body ctx)).
Proof. reflexivity. Qed.

(** A module name that the parsed docs do not list is answered with status
    404 and no body. *)
Lemma module_route_unknown_module markdown_render JSON_parse_metadata
      JSON_parse_docs packageName version moduleName row modules format ctx :
  JSON_parse_docs (Routes.docs row) = Normal modules ->
  none_named modules moduleName ->
  Routes.module_route markdown_render JSON_parse_metadata JSON_parse_docs
    packageName version moduleName (Some row) format ctx
  = Normal (Routes.mkContext 404 (Routes.location ctx) (Routes.body ctx)).
Proof.
  intros Hdocs Hnone. unfold Routes.module_route. simpl. rewrite Hdocs. simpl.
  apply findByName_none in Hnone. unfold Routes.findByName in Hnone.
  unfold Routes.name_of, Routes.Named_module in Hnone. now rewrite Hnone.
Qed.

(** C1.  On a stored overview whose metadata parses, the document-oriented
    shaping function returns its page, but the structured and the plain-text
    ones both evaluate [docs], which no scope of the handler binds: the
    request ends in a [ReferenceError] for either format, and for none
    specified. *)
Theorem overview_route_docs_unbound :
  forall (markdown_render : string -> string)
         (packageName version : string) (row : Routes.PackageInfo)
         (metadataObj : Routes.Metadata) (ctx : Routes.Context),
    Routes.overview_route markdown_render (fun _ => Normal metadataObj)
      packageName version (Some row) (Some Routes.json) ctx
    = Throw (ReferenceError "docs is not defined")
    /\ Routes.overview_route markdown_render (fun _ => Normal metadataObj)
         packageName version (Some row) (Some Routes.text) ctx
       = Throw (ReferenceError "docs is not defined")
    /\ Routes.overview_route markdown_render (fun _ => Normal metadataObj)
         packageName version (Some row) None ctx
       = Throw (ReferenceError "docs is not defined")
    /\ Routes.overview_route markdown_render (fun _ => Normal metadataObj)
         packageName version (Some row) (Some Routes.html) ctx
       = Normal
           (Routes.mkContext 200 (Routes.location ctx)
              (Some
                 (Routes.VPackageOverview
                    (Routes.mkPackageOverviewArgs
                       (Routes.pkg_name row) (Routes.pkg_version row)
                       (Routes.packageOverviewLink packageName version)
                       (markdown_render (Routes.readme row))
                       (Routes.prepareExposedModulesView packageName version
                          metadataObj))))).
Proof.
  intros. repeat split; reflexivity.
Qed.

(** C3.  When no overview is stored for the package and version, neither
    handler that fetches it answers 404: each reads a property of the
    missing row and ends in a [TypeError]. *)
Theorem routes_missing_overview_throw :
  forall (markdown_render : string -> string)
         (JSON_parse_metadata : string -> Completion Routes.Metadata)
         (JSON_parse_docs : string -> Completion (list Routes.ModuleInfo))
         (packageName version moduleName : string)
         (format : option Routes.Format) (ctx : Routes.Context),
    Routes.overview_route markdown_render JSON_parse_metadata
      packageName version None format ctx
    = Throw (TypeError
               "Cannot read properties of undefined (reading 'readme')")
    /\ Routes.module_route markdown_render JSON_parse_metadata JSON_parse_docs
         packageName version moduleName None format ctx
       = Throw (TypeError
                  "Cannot read properties of undefined (reading 'docs')").
Proof.
  intros. split; reflexivity.
Qed.

(* ================================================================== *)
(** ** Further properties of splitting *)

Lemma append_length (s t : string) :
  String.length (s ++ t) = String.length s + String.length t.
Proof. induction s as [|c s IH]; simpl; [reflexivity | now rewrite IH]. Qed.

Lemma append_same_length_inj (a b x y : string) :
  (a ++ x)%string = (b ++ y)%string -> String.length a = String.length b ->
  a = b /\ x = y.
Proof.
  revert b. induction a as [|c a IH]; intros [|d b] H Hlen;
    try discriminate; simpl in *.
  - auto.
  - injection H as -> H. injection Hlen as Hlen.
    destruct (IH b H Hlen) as [-> ->]. auto.
Qed.

Lemma split_go_skip sep (w : string) : forall q acc,
  JS.split_go sep (String.length w) acc (w ++ q) = JS.split_go sep 0 acc q.
Proof.
  induction w as [|a w IH]; intros q acc; [reflexivity|].
  simpl. apply IH.
Qed.

Lemma concat_cons sep x (l : list string) :
  l <> [] ->
  String.concat sep (x :: l) = (x ++ sep ++ String.concat sep l)%string.
Proof.
  destruct l; [contradiction | reflexivity].
Qed.

Lemma split_go_concat sep :
  sep <> EmptyString ->
  forall n s acc,
    String.length s <= n ->
    String.concat sep (JS.split_go sep 0 acc s) = (acc ++ s)%string.
Proof.
  intros Hsep. induction n as [|n IH]; intros s acc Hlen.
  - destruct s; [|simpl in Hlen; lia]. simpl. now rewrite append_nil_r.
  - destruct s as [|a r]; [simpl; now rewrite append_nil_r|].
    cbn [JS.split_go]. destruct (prefix sep (String a r)) eqn:Hpre.
    + apply prefix_append in Hpre as [q Hq].
      destruct sep as [|c sep']; [contradiction|].
      simpl in Hq. injection Hq as -> ->.
      replace (String.length (String c sep') - 1) with (String.length sep')
        by (simpl; lia).
      rewrite split_go_skip, concat_cons by apply split_go_nonempty.
      rewrite IH.
      * reflexivity.
      * simpl in Hlen. rewrite append_length in Hlen. lia.
    + rewrite IH by (simpl in Hlen; lia).
      now rewrite append_assoc.
Qed.

(** X1.  Splitting loses nothing: the intro and the directive blocks of a
    comment, joined by the delimiter, are the comment, and the sub-blocks
    of a block, joined by commas, are the block. *)
Theorem split_pieces_rejoin :
  (forall comment,
      String.concat Routes.docs_delimiter
        (JS.split Routes.docs_delimiter comment) = comment)
  /\ (forall block, String.concat "," (JS.split "," block) = block).
Proof.
  split; intros s; unfold JS.split.
  - assert (Hsep : Routes.docs_delimiter <> EmptyString) by discriminate.
    now rewrite (split_go_concat _ Hsep (String.length s)).
  - assert (Hsep : "," <> EmptyString) by discriminate.
    now rewrite (split_go_concat _ Hsep (String.length s)).
Qed.

Lemma occurs_longer sep acc :
  sep <> EmptyString ->
  (forall p q, acc = (p ++ sep ++ q)%string ->
               String.length acc <= String.length p) ->
  ~ occurs sep acc.
Proof.
  intros Hsep Hinv [p [q Hpq]]. specialize (Hinv p q Hpq).
  rewrite Hpq, !append_length in Hinv.
  destruct sep; [contradiction | simpl in Hinv; lia].
Qed.

Lemma split_go_pieces sep :
  sep <> EmptyString ->
  forall n s acc,
    String.length s <= n ->
    (forall p q, (acc ++ s)%string = (p ++ sep ++ q)%string ->
                 String.length acc <= String.length p) ->
    forall piece, In piece (JS.split_go sep 0 acc s) -> ~ occurs sep piece.
Proof.
  intros Hsep. induction n as [|n IH]; intros s acc Hlen Hinv piece Hin.
  - destruct s; [|simpl in Hlen; lia]. simpl in Hin.
    destruct Hin as [<-|[]]. apply occurs_longer; auto.
    intros p q Hpq. apply (Hinv p q). now rewrite append_nil_r.
  - destruct s as [|a r].
    + simpl in Hin. destruct Hin as [<-|[]]. apply occurs_longer; auto.
      intros p q Hpq. apply (Hinv p q). now rewrite append_nil_r.
    + cbn [JS.split_go] in Hin.
      destruct (prefix sep (String a r)) eqn:Hpre.
      * apply prefix_append in Hpre as [q Hq].
        destruct sep as [|c sep']; [contradiction|].
        simpl in Hq. injection Hq as -> ->.
        replace (String.length (String c sep') - 1) with (String.length sep')
          in Hin by (simpl; lia).
        rewrite split_go_skip in Hin. destruct Hin as [<-|Hin].
        -- apply occurs_longer; auto. intros p q' Hpq.
           apply (Hinv p (q' ++ String c (sep' ++ q))%string).
           rewrite Hpq, !append_assoc. reflexivity.
        -- apply (IH q EmptyString); auto.
           ++ simpl in Hlen. rewrite append_length in Hlen. lia.
           ++ intros; simpl; lia.
      * apply (IH r (acc ++ String a EmptyString)%string); auto.
        -- simpl in Hlen. lia.
        -- intros p q Hpq. rewrite append_assoc in Hpq. simpl in Hpq.
           pose proof (Hinv p q Hpq) as Hle.
           rewrite append_length. simpl.
           destruct (Nat.eq_dec (String.length acc) (String.length p))
             as [Heq|Hne]; [|lia].
           destruct (append_same_length_inj _ _ _ _ Hpq Heq) as [_ Hs].
           assert (prefix sep (String a r) = true)
             by (apply prefix_append; eauto).
           congruence.
Qed.

(** X2.  No piece holds the separator it was split on: a directive block
    holds no ["\n@docs"], a sub-block no comma. *)
Theorem split_pieces_hold_no_separator :
  (forall comment piece,
      In piece (JS.split Routes.docs_delimiter comment) ->
      occursb Routes.docs_delimiter piece = false)
  /\ (forall block piece,
         In piece (JS.split "," block) -> occursb "," piece = false).
Proof.
  split; intros s piece Hin; apply not_true_is_false;
    rewrite <- occursb_spec.
  - assert (Hsep : Routes.docs_delimiter <> EmptyString) by discriminate.
    apply (split_go_pieces _ Hsep (String.length s) s EmptyString (le_n _));
      auto; intros; simpl; lia.
  - assert (Hsep : "," <> EmptyString) by discriminate.
    apply (split_go_pieces _ Hsep (String.length s) s EmptyString (le_n _));
      auto; intros; simpl; lia.
Qed.

Lemma split_pieces_hold_no_separator_witness :
  In " foo" (JS.split "," " foo, ") /\ occursb "," " foo" = false.
Proof.
  assert (Hin : In " foo" (JS.split "," " foo, ")) by (simpl; auto).
  split; [exact Hin|].
  exact (proj2 split_pieces_hold_no_separator " foo, " " foo" Hin).
Defined.

(* ================================================================== *)
(** ** Further properties of the documentation of a module *)

Lemma prefix_slice (p t : string) :
  prefix p t = true -> (p ++ JS.slice (String.length p) t)%string = t.
Proof.
  intros H. apply prefix_append in H as [q ->].
  induction p as [|c p IH]; simpl; [now destruct q | now rewrite IH].
Qed.

Lemma prefix_trans (a b c : string) :
  prefix a b = true -> prefix b c = true -> prefix a c = true.
Proof.
  rewrite !prefix_append. intros [q ->] [r ->].
  exists (q ++ r)%string. now rewrite append_assoc.
Qed.

Lemma trimRight_rest (t : string) :
  exists rest, t = (JS.trimRight t ++ rest)%string /\ JS.all_ws rest = true.
Proof.
  induction t as [|a r [rest [Hr Hws]]].
  - exists EmptyString. auto.
  - cbn [JS.trimRight]. destruct (JS.all_ws (String a r)) eqn:Hall.
    + exists (String a r). auto.
    + exists rest. simpl. now rewrite <- Hr.
Qed.

Lemma trimRight_prefix (t : string) : prefix (JS.trimRight t) t = true.
Proof.
  destruct (trimRight_rest t) as [rest [Hr _]].
  apply prefix_append. eauto.
Qed.

(** The first piece of a split on white space is a prefix of the text,
    and the only piece when it is all of the text. *)
Lemma split_ws_go_first s : forall acc,
  exists p r rest,
    JS.split_ws_go 0 false acc s = (acc ++ p)%string :: rest
    /\ s = (p ++ r)%string
    /\ (r = EmptyString -> rest = []).
Proof.
  induction s as [|a s IH]; intros acc.
  - exists EmptyString, EmptyString, []. simpl. now rewrite append_nil_r.
  - cbn [JS.split_ws_go]. destruct (JS.ws_width (String a s)).
    + destruct (IH (acc ++ String a EmptyString)%string)
        as [p [r [rest [Hsplit [Hs Hr]]]]].
      exists (String a p), r, rest. rewrite Hsplit, append_assoc. simpl.
      repeat split; auto. now rewrite <- Hs.
    + exists EmptyString, (String a s). eexists. rewrite append_nil_r.
      repeat split. discriminate.
Qed.

(** A text with a single word holds no white space: it is the word. *)
Lemma split_ws_go_single s : forall acc w,
  JS.split_ws_go 0 false acc s = [w] -> w = (acc ++ s)%string.
Proof.
  induction s as [|a r IH]; intros acc w.
  - simpl. intros [= <-]. now rewrite append_nil_r.
  - cbn [JS.split_ws_go]. destruct (JS.ws_width (String a r)).
    + intros H. apply IH in H. now rewrite append_assoc in H.
    + intros [= _ H]. exfalso. revert H. apply split_ws_go_nonempty.
Qed.

Lemma slice_append (p q : string) : JS.slice (String.length p) (p ++ q) = q.
Proof. induction p as [|c p IH]; simpl; [now destruct q | exact IH]. Qed.

(** What follows a proper prefix of the right-trimmed text is not white
    space only. *)
Lemma trimRight_after t : forall p r,
  JS.trimRight t = (p ++ r)%string -> r <> EmptyString ->
  JS.all_ws (JS.slice (String.length p) t) = false.
Proof.
  induction t as [|a t IH]; intros p r Ht Hr.
  - destruct p; simpl in Ht; [now subst | discriminate].
  - cbn [JS.trimRight] in Ht.
    destruct (JS.all_ws (String a t)) eqn:Hall.
    + destruct p; simpl in Ht; [now subst | discriminate].
    + destruct p as [|c p]; [exact Hall|].
      simpl in Ht. injection Ht as _ Ht. simpl. exact (IH p r Ht Hr).
Qed.

(** The nodes of a block, by its left-trimmed text: the first word and a
    rest, which is white space only exactly when the block has one word. *)
Lemma block_nodes_cases markdown_render moduleInfo block :
  exists rest,
    JS.trimLeft block = (first_word block ++ rest)%string
    /\ Routes.block_nodes markdown_render moduleInfo block
       = if JS.all_ws rest
         then [Routes.constructValue markdown_render moduleInfo
                 (first_word block)]
         else [Routes.constructValue markdown_render moduleInfo
                 (first_word block);
               Some (Routes.Markdown (markdown_render rest))].
Proof.
  unfold first_word, Routes.block_nodes, JS.trim, JS.split_ws.
  destruct (split_ws_go_first (JS.trimRight (JS.trimLeft block)) EmptyString)
    as [p [r [more [Hsplit [Hp Hr]]]]].
  simpl in Hsplit. rewrite Hsplit. cbn [hd].
  destruct (trimRight_rest (JS.trimLeft block)) as [trail [Htrail Hws]].
  destruct more as [|word words].
  - apply split_ws_go_single in Hsplit. simpl in Hsplit.
    exists trail. rewrite Hsplit at 1. split; [exact Htrail|].
    rewrite Hws. reflexivity.
  - exists (JS.slice (String.length p) (JS.trimLeft block)).
    assert (Hne : r <> EmptyString) by (intros ->; now specialize (Hr eq_refl)).
    rewrite (trimRight_after _ p r Hp Hne). split; [|reflexivity].
    symmetry. apply prefix_slice.
    apply (prefix_trans _ (JS.trimRight (JS.trimLeft block))).
    + apply prefix_append. eauto.
    + apply trimRight_prefix.
Qed.

(** X3.  A sub-block always yields one slot or two, never none.  Its
    left-trimmed text is the first word followed by a rest.  When the rest
    is white space only, that is when the block has a single word, the
    block yields the slot of the word alone; otherwise it yields that slot
    and then the prose node of the rest.  So nothing but trailing white
    space of a one-word block is dropped, and no prose node is made of
    white space alone. *)
Theorem block_nodes_partition :
  forall (markdown_render : string -> string)
         (moduleInfo : Routes.ModuleInfo) (block : string),
  exists rest,
    JS.trimLeft block = (first_word block ++ rest)%string
    /\ Routes.block_nodes markdown_render moduleInfo block
       = if JS.all_ws rest
         then [Routes.constructValue markdown_render moduleInfo
                 (first_word block)]
         else [Routes.constructValue markdown_render moduleInfo
                 (first_word block);
               Some (Routes.Markdown (markdown_render rest))].
Proof.
  intros. apply block_nodes_cases.
Qed.

Lemma constructValue_not_prose markdown_render moduleInfo name :
  is_prose (Routes.constructValue markdown_render moduleInfo name) = false.
Proof.
  destruct (Routes.constructValue markdown_render moduleInfo name)
    as [[]|] eqn:H; try reflexivity.
  exfalso. revert H. apply constructValue_not_markdown.
Qed.

Lemma block_nodes_shape markdown_render moduleInfo block :
  exists more,
    Routes.block_nodes markdown_render moduleInfo block
    = Routes.constructValue markdown_render moduleInfo (first_word block)
        :: more
    /\ (more = [] \/ exists html, more = [Some (Routes.Markdown html)]).
Proof.
  destruct (block_nodes_cases markdown_render moduleInfo block)
    as [rest [_ ->]].
  destruct (JS.all_ws rest); eauto.
Qed.

Lemma adjacent_prose_cons a b rest :
  adjacent_prose (a :: b :: rest)
  = is_prose a && is_prose b || adjacent_prose (b :: rest).
Proof. reflexivity. Qed.

Lemma parts_no_adjacent_prose markdown_render moduleInfo blocks :
  adjacent_prose
    (flat_map (Routes.block_nodes markdown_render moduleInfo) blocks) = false
  /\ is_prose
       (hd None
          (flat_map (Routes.block_nodes markdown_render moduleInfo) blocks))
     = false.
Proof.
  induction blocks as [|b blocks [IHadj IHhd]]; [split; reflexivity|].
  cbn [flat_map].
  destruct (block_nodes_shape markdown_render moduleInfo b)
    as [more [-> [->|[html ->]]]]; cbn [app hd];
    pose proof (constructValue_not_prose markdown_render moduleInfo
                  (first_word b)) as Hnp;
    (split; [|exact Hnp]).
  - destruct (flat_map _ blocks) as [|x l] eqn:E; [reflexivity|].
    rewrite adjacent_prose_cons, Hnp. exact IHadj.
  - rewrite adjacent_prose_cons, Hnp. cbn [andb orb].
    destruct (flat_map _ blocks) as [|x l] eqn:E; [reflexivity|].
    cbn [hd] in IHhd. rewrite adjacent_prose_cons, IHhd, andb_false_r.
    exact IHadj.
Qed.

Lemma prepareModuleDocumentation_nodes markdown_render moduleInfo :
  exists intro,
    Routes.prepareModuleDocumentation markdown_render moduleInfo
    = Routes.Nodes
        (Some (Routes.Markdown (markdown_render intro))
           :: flat_map (Routes.block_nodes markdown_render moduleInfo)
                (sub_blocks (Routes.comment moduleInfo))).
Proof.
  unfold Routes.prepareModuleDocumentation, sub_blocks.
  destruct (JS.split Routes.docs_delimiter (Routes.comment moduleInfo))
    as [|first rest] eqn:Hsplit.
  - exfalso. revert Hsplit. apply split_go_nonempty.
  - exists first. reflexivity.
Qed.

(** X4.  In the documentation of a module no two prose nodes are
    neighbours: between the intro and any later prose, and between two
    later proses, stands the slot of a symbol. *)
Theorem prepareModuleDocumentation_no_adjacent_prose :
  forall (markdown_render : string -> string) (moduleInfo : Routes.ModuleInfo),
  exists nodes,
    Routes.prepareModuleDocumentation markdown_render moduleInfo
    = Routes.Nodes nodes
    /\ adjacent_prose nodes = false.
Proof.
  intros render m.
  destruct (prepareModuleDocumentation_nodes render m) as [intro ->].
  eexists. split; [reflexivity|].
  destruct (parts_no_adjacent_prose render m
              (sub_blocks (Routes.comment m))) as [Hadj Hhd].
  destruct (flat_map _ _) as [|x l]; [reflexivity|].
  cbn [hd] in Hhd. rewrite adjacent_prose_cons, Hhd, andb_false_r. exact Hadj.
Qed.

Lemma parts_symbol_slots markdown_render moduleInfo blocks :
  filter (fun slot => negb (is_prose slot))
    (flat_map (Routes.block_nodes markdown_render moduleInfo) blocks)
  = map (fun block =>
           Routes.constructValue markdown_render moduleInfo (first_word block))
      blocks.
Proof.
  induction blocks as [|b blocks IH]; [reflexivity|].
  cbn [flat_map map]. rewrite filter_app, IH. f_equal.
  pose proof (constructValue_not_prose markdown_render moduleInfo
                (first_word b)) as Hnp.
  destruct (block_nodes_shape markdown_render moduleInfo b)
    as [more [-> [->|[html ->]]]]; cbn [filter]; rewrite Hnp; reflexivity.
Qed.

(** X5.  The slots of the documentation of a module that are not prose
    are, after the intro and in order, the resolutions of the first words of
    the comment's sub-blocks: one slot per sub-block, none added, none
    dropped, none reordered. *)
Theorem prepareModuleDocumentation_symbol_slots :
  forall (markdown_render : string -> string) (moduleInfo : Routes.ModuleInfo),
  exists intro parts,
    Routes.prepareModuleDocumentation markdown_render moduleInfo
    = Routes.Nodes (Some (Routes.Markdown intro) :: parts)
    /\ filter (fun slot => negb (is_prose slot)) parts
       = map (fun block =>
                Routes.constructValue markdown_render moduleInfo
                  (first_word block))
           (sub_blocks (Routes.comment moduleInfo)).
Proof.
  intros render m.
  destruct (prepareModuleDocumentation_nodes render m) as [intro ->].
  do 2 eexists. split; [reflexivity|]. apply parts_symbol_slots.
Qed.

(* ================================================================== *)
(** ** Further properties of symbol resolution *)

Section FindByNameSpec.
Context {A : Type} `{Routes.Named A}.

Lemma findByName_some_first (l : list A) n d :
  Routes.findByName l n = Some d -> first_named l n d.
Proof.
  unfold Routes.findByName. induction l as [|e l IH]; simpl; [discriminate|].
  destruct (String.eqb_spec (Routes.name_of e) n) as [He|He].
  - intros [= <-]. exists [], l. repeat split; auto.
  - intros Hd. destruct (IH Hd) as [l1 [l2 [-> [Hn Hl1]]]].
    exists (e :: l1), l2. repeat split; auto.
Qed.

Lemma findByName_none_named (l : list A) n :
  Routes.findByName l n = None -> none_named l n.
Proof.
  unfold Routes.findByName, none_named.
  induction l as [|e l IH]; simpl; [constructor|].
  destruct (String.eqb_spec (Routes.name_of e) n) as [He|He];
    [discriminate|]. auto.
Qed.

End FindByNameSpec.

(** X6.  [findByName] returns a record exactly when it is the first of the
    list with the queried name, so the record it returns is in the list and
    has that name; it returns nothing exactly when no record has it. *)
Theorem findByName_specification :
  forall (A : Type) (named : Routes.Named A) (list : list A) (name : string),
    (forall d, Routes.findByName list name = Some d
               <-> first_named list name d)
    /\ (forall d, Routes.findByName list name = Some d ->
                  In d list /\ Routes.name_of d = name)
    /\ (Routes.findByName list name = None <-> none_named list name).
Proof.
  intros A named l n. split; [|split].
  - intros d. split; [apply findByName_some_first | apply findByName_first].
  - intros d Hd. apply findByName_some_first in Hd
      as [l1 [l2 [-> [Hn _]]]].
    split; [apply in_or_app; right; now left | exact Hn].
  - split; [apply findByName_none_named | apply findByName_none].
Qed.

Lemma findByName_specification_witness :
  Routes.findByName [Examples.bar; Examples.foo] "foo" = Some Examples.foo
  /\ In Examples.foo [Examples.bar; Examples.foo]
  /\ Routes.v_name Examples.foo = "foo".
Proof.
  split; [reflexivity|].
  exact (proj1 (proj2 (findByName_specification _ _
                         [Examples.bar; Examples.foo] "foo"))
           Examples.foo eq_refl).
Defined.

(** X7.  A name resolves to no node exactly when none of the four tables
    holds it; a node it resolves to is never a prose node and carries the
    queried name. *)
Theorem constructValue_resolves :
  forall (markdown_render : string -> string)
         (moduleInfo : Routes.ModuleInfo) (name : string),
    (Routes.constructValue markdown_render moduleInfo name = None
     <-> none_named (Routes.values moduleInfo) name
         /\ none_named (Routes.binops moduleInfo) name
         /\ none_named (Routes.unions moduleInfo) name
         /\ none_named (Routes.aliases moduleInfo) name)
    /\ (forall node,
           Routes.constructValue markdown_render moduleInfo name = Some node ->
           node_name node = Some name).
Proof.
  intros render m n. unfold Routes.constructValue. split; [split|].
  - destruct (Routes.findByName (Routes.values m) n) eqn:Hv; [discriminate|].
    destruct (Routes.findByName (Routes.binops m) n) eqn:Hb; [discriminate|].
    destruct (Routes.findByName (Routes.unions m) n) eqn:Hu; [discriminate|].
    destruct (Routes.findByName (Routes.aliases m) n) eqn:Ha; [discriminate|].
    intros _. repeat split; now apply findByName_none_named.
  - intros [Hv [Hb [Hu Ha]]].
    now rewrite (findByName_none _ _ Hv), (findByName_none _ _ Hb),
      (findByName_none _ _ Hu), (findByName_none _ _ Ha).
  - intros node.
    destruct (Routes.findByName (Routes.values m) n);
      [now intros [= <-]|].
    destruct (Routes.findByName (Routes.binops m) n);
      [now intros [= <-]|].
    destruct (Routes.findByName (Routes.unions m) n);
      [now intros [= <-]|].
    destruct (Routes.findByName (Routes.aliases m) n);
      [now intros [= <-] | discriminate].
Qed.

Lemma constructValue_resolves_witness :
  Routes.constructValue Examples.render_paragraph Examples.module_shadowed
    "Maybe"
  = Some (Routes.Union "Maybe" (Examples.render_paragraph "Optional.")
            ["a"] [])
  /\ node_name (Routes.Union "Maybe" (Examples.render_paragraph "Optional.")
                  ["a"] [])
     = Some "Maybe".
Proof.
  split; [reflexivity|].
  exact (proj2 (constructValue_resolves Examples.render_paragraph
                  Examples.module_shadowed "Maybe")
           _ eq_refl).
Defined.

(* ================================================================== *)
(** ** Further properties of the links *)

Lemma unescape_percent_escape c :
  unescape (JS.hex_digit (N_of_ascii c / 16))
    (JS.hex_digit (N_of_ascii c mod 16)) = c.
Proof.
  destruct c as [[] [] [] [] [] [] [] []]; reflexivity.
Qed.

Lemma encode_char_no_slash c :
  count_char "/"
    (if JS.unreserved c then String c EmptyString else JS.percent_escape c)
  = 0.
Proof.
  destruct c as [[] [] [] [] [] [] [] []]; reflexivity.
Qed.

Lemma count_char_append c s t :
  count_char c (s ++ t) = count_char c s + count_char c t.
Proof.
  induction s as [|a s IH]; simpl; [reflexivity | rewrite IH; lia].
Qed.

Lemma encodeURIComponent_no_slash s :
  count_char "/" (JS.encodeURIComponent s) = 0.
Proof.
  induction s as [|c s IH]; [reflexivity|].
  cbn [JS.encodeURIComponent].
  now rewrite count_char_append, encode_char_no_slash, IH.
Qed.

Lemma encodeURIComponent_injective s : forall t,
  JS.encodeURIComponent s = JS.encodeURIComponent t -> s = t.
Proof.
  induction s as [|c s IH]; intros [|d t]; cbn [JS.encodeURIComponent].
  - reflexivity.
  - destruct (JS.unreserved d); discriminate.
  - destruct (JS.unreserved c); discriminate.
  - destruct (JS.unreserved c) eqn:Hc, (JS.unreserved d) eqn:Hd;
      unfold JS.percent_escape; simpl; intros Heq.
    + injection Heq as -> Heq. f_equal. auto.
    + injection Heq as -> _. discriminate.
    + injection Heq as <- _. discriminate.
    + injection Heq as Hhi Hlo Heq.
      pose proof (unescape_percent_escape c) as Ec.
      rewrite Hhi, Hlo, unescape_percent_escape in Ec. subst d.
      f_equal. auto.
Qed.

(** A text is cut at its first [/] in one way only. *)
Lemma cut_at_slash a : forall b x y,
  count_char "/" a = 0 -> count_char "/" b = 0 ->
  (a ++ String "/" x)%string = (b ++ String "/" y)%string ->
  a = b /\ x = y.
Proof.
  induction a as [|c a IH]; intros [|d b] x y Ha Hb Heq; simpl in *.
  - injection Heq as ->. auto.
  - injection Heq as <- _. discriminate.
  - injection Heq as -> _. discriminate.
  - injection Heq as -> Heq.
    destruct (Ascii.eqb d "/"); [discriminate|].
    destruct (IH b x y Ha Hb Heq) as [-> ->]. auto.
Qed.

(** X8.  Links do not collide: two module links are equal only for the
    same package name, version and module name, and two overview links only
    for the same package name and version. *)
Theorem links_injective :
  (forall p v m p' v' m',
      Routes.link (Routes.prepareModuleForView p v m)
      = Routes.link (Routes.prepareModuleForView p' v' m') ->
      p = p' /\ v = v' /\ m = m')
  /\ (forall p v p' v',
         Routes.packageOverviewLink p v = Routes.packageOverviewLink p' v' ->
         p = p' /\ v = v').
Proof.
  split.
  - intros p v m p' v' m' H. unfold Routes.prepareModuleForView in H.
    cbn [Routes.link] in H. simpl in H. injection H as H.
    apply cut_at_slash in H as [Hp H];
      try apply encodeURIComponent_no_slash.
    injection H as H.
    apply cut_at_slash in H as [Hv H];
      try apply encodeURIComponent_no_slash.
    injection H as H.
    apply encodeURIComponent_injective in Hp, Hv, H. auto.
  - intros p v p' v' H. unfold Routes.packageOverviewLink in H.
    simpl in H. injection H as H.
    apply cut_at_slash in H as [Hp H];
      try apply encodeURIComponent_no_slash.
    injection H as H.
    apply cut_at_slash in H as [Hv _];
      try apply encodeURIComponent_no_slash.
    apply encodeURIComponent_injective in Hp, Hv. auto.
Qed.

Lemma links_injective_witness :
  Routes.packageOverviewLink "gren-lang/core" "1.0.0"
  = Routes.packageOverviewLink "gren-lang/core" "1.0.0"
  /\ "gren-lang/core" = "gren-lang/core" /\ "1.0.0" = "1.0.0".
Proof.
  split; [reflexivity|].
  exact (proj2 links_injective "gren-lang/core" "1.0.0"
           "gren-lang/core" "1.0.0" eq_refl).
Defined.

(** X9.  A name never adds a path segment: whatever the package name,
    the version and the module name hold, a module link has the six
    slashes of its template and an overview link the five of its own. *)
Theorem links_have_the_slashes_of_their_template :
  forall p v m,
    count_char "/" (Routes.link (Routes.prepareModuleForView p v m)) = 6
    /\ count_char "/" (Routes.packageOverviewLink p v) = 5.
Proof.
  intros p v m. unfold Routes.prepareModuleForView, Routes.packageOverviewLink.
  cbn [Routes.link].
  rewrite !count_char_append, !encodeURIComponent_no_slash. split; reflexivity.
Qed.

(** X10.  A module name made of unreserved marks only (letters, digits,
    dots and the like) stands in its link as it is. *)
Theorem link_of_plain_module_name :
  forall p v m,
    JS.all_chars JS.unreserved m = true ->
    Routes.link (Routes.prepareModuleForView p v m)
    = ("/package/" ++ JS.encodeURIComponent p ++ "/version/"
         ++ JS.encodeURIComponent v ++ "/module/" ++ m)%string.
Proof.
  intros p v m Hm. unfold Routes.prepareModuleForView. cbn [Routes.link].
  now rewrite (encodeURIComponent_unreserved m Hm).
Qed.

Lemma link_of_plain_module_name_witness :
  JS.all_chars JS.unreserved "Data.List" = true
  /\ Routes.link (Routes.prepareModuleForView "gren-lang/core" "1.0.0"
                    "Data.List")
     = "/package/gren-lang%2Fcore/version/1.0.0/module/Data.List".
Proof.
  split; [reflexivity|].
  exact (link_of_plain_module_name "gren-lang/core" "1.0.0" "Data.List"
           eq_refl).
Defined.

(* ================================================================== *)
(** ** Further properties of the route handlers *)

(** X11.  For a package with stored versions, all accepted by [semver]
    and with numeric pre-release identifiers below [MAX_SAFE_INTEGER], the
    lookup answers 303, redirects to the very link the pages use for the
    overview of the latest version, and has the notice of that redirect as
    its body. *)
Theorem package_route_redirects_to_overview_link :
  forall packageName rows ctx,
    rows <> [] ->
    Forall safe (map Routes.version rows) ->
    exists latest,
      Routes.latestVersion (map Routes.version rows) = Normal (Some latest)
      /\ Routes.package_route packageName rows ctx
         = Normal
             (Routes.mkContext 303
                (Some (Routes.packageOverviewLink packageName latest))
                (Some (Routes.redirect_notice
                         (Routes.packageOverviewLink packageName latest)))).
Proof.
  intros packageName rows ctx Hne Hsafe.
  destruct (latestVersion_of_versions (map Routes.version rows))
    as [latest [Hlatest _]]; auto.
  { destruct rows; [contradiction | discriminate]. }
  exists latest. split; [exact Hlatest|].
  exact (package_route_redirects packageName rows ctx latest Hne Hlatest).
Qed.

Lemma package_route_redirects_to_overview_link_witness :
  ([Routes.mkVersionRow "1.0.0"; Routes.mkVersionRow "1.1.0"] <> []
   /\ Forall safe
        (map Routes.version
           [Routes.mkVersionRow "1.0.0"; Routes.mkVersionRow "1.1.0"]))
  /\ exists latest,
      Routes.latestVersion
        (map Routes.version
           [Routes.mkVersionRow "1.0.0"; Routes.mkVersionRow "1.1.0"])
      = Normal (Some latest)
      /\ Routes.package_route "gren-lang/core"
           [Routes.mkVersionRow "1.0.0"; Routes.mkVersionRow "1.1.0"]
           Routes.fresh_context
         = Normal
             (Routes.mkContext 303
                (Some (Routes.packageOverviewLink "gren-lang/core" latest))
                (Some (Routes.redirect_notice
                         (Routes.packageOverviewLink "gren-lang/core"
                            latest)))).
Proof.
  assert (H : [Routes.mkVersionRow "1.0.0"; Routes.mkVersionRow "1.1.0"] <> []
              /\ Forall safe
                   (map Routes.version
                      [Routes.mkVersionRow "1.0.0";
                       Routes.mkVersionRow "1.1.0"])).
  { split; [discriminate|].
    repeat constructor; eexists; split; vm_compute; reflexivity. }
  split; [exact H|].
  exact (package_route_redirects_to_overview_link "gren-lang/core" _
           Routes.fresh_context (proj1 H) (proj2 H)).
Defined.

(** X12.  A package with one stored version is redirected to it without
    the version being parsed, whatever the string is: the answer is 303,
    with the overview link of that version and the notice of the redirect
    as the body.  With two stored versions or more, one that [semver] does
    not accept makes the lookup throw. *)
Theorem package_route_unparsable_versions :
  (forall packageName row ctx,
      Routes.package_route packageName [row] ctx
      = Normal
          (Routes.mkContext 303
             (Some (Routes.packageOverviewLink packageName
                      (Routes.version row)))
             (Some (Routes.redirect_notice
                      (Routes.packageOverviewLink packageName
                         (Routes.version row))))))
  /\ (forall packageName rows ctx,
         2 <= List.length rows ->
         (exists row, In row rows /\ ~ Semver.valid (Routes.version row)) ->
         exists e, Routes.package_route packageName rows ctx = Throw e).
Proof.
  split; [reflexivity|].
  intros packageName rows ctx Hlen [row [Hin Hbad]].
  destruct rows as [|r1 [|r2 rows]]; simpl in Hlen; try lia.
  unfold Routes.package_route, Routes.latestVersion.
  cbn [map List.length Nat.eqb].
  destruct (JS.sort Semver.rcompare
              (Routes.version r1 :: Routes.version r2
                 :: map Routes.version rows)) as [sorted|e] eqn:Hsort.
  - exfalso. apply Hbad.
    pose proof (sort_checks Semver.rcompare Semver.valid rcompare_checks
                  _ _ _ _ Hsort) as Hvalid.
    rewrite Forall_forall in Hvalid. apply Hvalid.
    change (In (Routes.version row)
              (map Routes.version (r1 :: r2 :: rows))).
    now apply in_map.
  - exists e. reflexivity.
Qed.

Lemma package_route_unparsable_versions_witness :
  (2 <= List.length [Routes.mkVersionRow "1.0.0"; Routes.mkVersionRow "latest"]
   /\ exists row,
       In row [Routes.mkVersionRow "1.0.0"; Routes.mkVersionRow "latest"]
       /\ ~ Semver.valid (Routes.version row))
  /\ exists e,
      Routes.package_route "gren-lang/core"
        [Routes.mkVersionRow "1.0.0"; Routes.mkVersionRow "latest"]
        Routes.fresh_context
      = Throw e.
Proof.
  assert (H : 2 <= List.length [Routes.mkVersionRow "1.0.0";
                                Routes.mkVersionRow "latest"]
              /\ exists row,
                  In row [Routes.mkVersionRow "1.0.0";
                          Routes.mkVersionRow "latest"]
                  /\ ~ Semver.valid (Routes.version row)).
  { split; [simpl; lia|]. exists (Routes.mkVersionRow "latest").
    split; [simpl; auto|]. intros [v Hv]. vm_compute in Hv. discriminate. }
  split; [exact H|].
  exact (proj2 package_route_unparsable_versions "gren-lang/core" _
           Routes.fresh_context (proj1 H) (proj2 H)).
Defined.

(** X13.  For versions that [semver] accepts and whose numeric
    pre-release identifiers are all below [MAX_SAFE_INTEGER], the latest
    version does not depend on the order in which the store lists them, up
    to precedence: from two arrangements of the same versions, the two
    selected versions compare equal. *)
Theorem latestVersion_of_rearranged_versions :
  forall versionsOfPackage rearranged,
    Permutation versionsOfPackage rearranged ->
    versionsOfPackage <> [] ->
    Forall safe versionsOfPackage ->
    exists latest latest',
      Routes.latestVersion versionsOfPackage = Normal (Some latest)
      /\ Routes.latestVersion rearranged = Normal (Some latest')
      /\ Semver.compare latest latest' = Normal 0%Z.
Proof.
  intros l l' Hperm Hne Hsafe.
  assert (Hne' : l' <> []).
  { intros ->. apply Permutation_sym, Permutation_nil in Hperm.
    contradiction. }
  assert (Hsafe' : Forall safe l').
  { rewrite Forall_forall in *. intros v Hv. apply Hsafe.
    apply (Permutation_in _ (Permutation_sym Hperm)). exact Hv. }
  destruct (latestVersion_of_versions l Hne Hsafe) as [a [Ha [Hina Hmaxa]]].
  destruct (latestVersion_of_versions l' Hne' Hsafe')
    as [b [Hb [Hinb Hmaxb]]].
  exists a, b. repeat split; auto.
  assert (Hab : Semver.gte a b).
  { apply Hmaxa. apply (Permutation_in _ (Permutation_sym Hperm)). exact Hinb. }
  assert (Hba : Semver.gte b a).
  { apply Hmaxb. apply (Permutation_in _ Hperm). exact Hina. }
  rewrite Forall_forall in Hsafe.
  destruct (compare_safe a b (Hsafe a Hina)
              (Hsafe b (Permutation_in _ (Permutation_sym Hperm) Hinb)))
    as [va [vb [Hva [Hvb [Hcab _]]]]].
  destruct (compare_safe b a
              (Hsafe b (Permutation_in _ (Permutation_sym Hperm) Hinb))
              (Hsafe a Hina))
    as [vb' [va' [Hvb' [Hva' [Hcba _]]]]].
  rewrite Hva in Hva'. rewrite Hvb in Hvb'.
  injection Hva' as <-. injection Hvb' as <-.
  destruct Hab as [x [Hx Hx0]]. destruct Hba as [y [Hy Hy0]].
  rewrite Hcab in Hx. rewrite Hcba in Hy. rewrite Hcab.
  injection Hx as <-. injection Hy as <-.
  rewrite (consistent_swap _ compare_read_consistent va vb) in Hy0.
  f_equal. lia.
Qed.

Lemma latestVersion_of_rearranged_versions_witness :
  (Permutation ["1.0.0"; "2.0.0+a"; "2.0.0+b"] ["2.0.0+b"; "1.0.0"; "2.0.0+a"]
   /\ ["1.0.0"; "2.0.0+a"; "2.0.0+b"] <> []
   /\ Forall safe ["1.0.0"; "2.0.0+a"; "2.0.0+b"])
  /\ exists latest latest',
      Routes.latestVersion ["1.0.0"; "2.0.0+a"; "2.0.0+b"]
      = Normal (Some latest)
      /\ Routes.latestVersion ["2.0.0+b"; "1.0.0"; "2.0.0+a"]
         = Normal (Some latest')
      /\ Semver.compare latest latest' = Normal 0%Z.
Proof.
  assert (Hperm : Permutation ["1.0.0"; "2.0.0+a"; "2.0.0+b"]
                    ["2.0.0+b"; "1.0.0"; "2.0.0+a"]).
  { apply Permutation_sym.
    apply (Permutation_cons_app ["1.0.0"; "2.0.0+a"] [] "2.0.0+b").
    rewrite app_nil_r. apply Permutation_refl. }
  assert (Hne : ["1.0.0"; "2.0.0+a"; "2.0.0+b"] <> []) by discriminate.
  assert (Hsafe : Forall safe ["1.0.0"; "2.0.0+a"; "2.0.0+b"]).
  { repeat constructor; eexists; split; vm_compute; reflexivity. }
  split; [auto|].
  exact (latestVersion_of_rearranged_versions _ _ Hperm Hne Hsafe).
Defined.

(** X14.  A module that the parsed docs do not list is answered 404 with
    no body whatever the format, and before the metadata is looked at: it
    is so even when the metadata would not parse. *)
Theorem module_route_not_found_before_metadata :
  forall (markdown_render : string -> string)
         (JSON_parse_metadata : string -> Completion Routes.Metadata)
         (JSON_parse_docs : string -> Completion (list Routes.ModuleInfo))
         packageName version moduleName row modules format ctx,
    JSON_parse_docs (Routes.docs row) = Normal modules ->
    none_named modules moduleName ->
    Routes.module_route markdown_render JSON_parse_metadata JSON_parse_docs
      packageName version moduleName (Some row) format ctx
    = Normal (Routes.mkContext 404 (Routes.location ctx) (Routes.body ctx)).
Proof.
  intros. now apply module_route_unknown_module with (modules := modules).
Qed.

Lemma module_route_not_found_before_metadata_witness :
  ((fun _ : string => Normal [Examples.module_shadowed]) (Routes.docs Examples.row)
   = Normal [Examples.module_shadowed]
   /\ none_named [Examples.module_shadowed] "Missing")
  /\ Routes.module_route Examples.render_paragraph
       (fun _ => Throw (SyntaxError "Unexpected end of JSON input"))
       (fun _ => Normal [Examples.module_shadowed])
       "gren-lang/core" "1.0.0" "Missing" (Some Examples.row)
       (Some Routes.html) Routes.fresh_context
     = Normal (Routes.mkContext 404 None None).
Proof.
  assert (Hnone : none_named [Examples.module_shadowed] "Missing").
  { repeat constructor. discriminate. }
  split; [split; [reflexivity | exact Hnone]|].
  exact (module_route_not_found_before_metadata Examples.render_paragraph
           (fun _ => Throw (SyntaxError "Unexpected end of JSON input"))
           (fun _ => Normal [Examples.module_shadowed])
           "gren-lang/core" "1.0.0" "Missing" Examples.row
           [Examples.module_shadowed] (Some Routes.html) Routes.fresh_context
           eq_refl Hnone).
Defined.

(** X16.  A JSON text that does not parse ends the request with the
    parser's error, whatever the format: the metadata for the overview (even
    for the page, which would not throw otherwise), the docs for a module,
    and the metadata for a module that the docs list. *)
Theorem routes_propagate_parse_errors :
  forall (markdown_render : string -> string)
         (JSON_parse_metadata : string -> Completion Routes.Metadata)
         (JSON_parse_docs : string -> Completion (list Routes.ModuleInfo))
         packageName version moduleName row format ctx e,
    (JSON_parse_metadata (Routes.metadata row) = Throw e ->
     Routes.overview_route markdown_render JSON_parse_metadata
       packageName version (Some row) format ctx = Throw e)
    /\ (JSON_parse_docs (Routes.docs row) = Throw e ->
        Routes.module_route markdown_render JSON_parse_metadata JSON_parse_docs
          packageName version moduleName (Some row) format ctx = Throw e)
    /\ (forall modules moduleInfo,
           JSON_parse_docs (Routes.docs row) = Normal modules ->
           first_named modules moduleName moduleInfo ->
           JSON_parse_metadata (Routes.metadata row) = Throw e ->
           Routes.module_route markdown_render JSON_parse_metadata
             JSON_parse_docs packageName version moduleName (Some row)
             format ctx = Throw e).
Proof.
  intros render parse_metadata parse_docs p v n row format ctx e.
  split; [|split].
  - intros Hmeta. unfold Routes.overview_route. simpl. now rewrite Hmeta.
  - intros Hdocs. unfold Routes.module_route. simpl. now rewrite Hdocs.
  - intros modules m Hdocs Hfirst Hmeta.
    apply findByName_first in Hfirst. unfold Routes.findByName in Hfirst.
    unfold Routes.name_of, Routes.Named_module in Hfirst.
    unfold Routes.module_route. simpl. rewrite Hdocs. simpl.
    now rewrite Hfirst, Hmeta.
Qed.

Lemma routes_propagate_parse_errors_witness :
  (fun _ : string => @Throw Routes.Metadata (SyntaxError "Unexpected token"))
    (Routes.metadata Examples.row)
  = Throw (SyntaxError "Unexpected token")
  /\ Routes.overview_route Examples.render_paragraph
       (fun _ => Throw (SyntaxError "Unexpected token"))
       "gren-lang/core" "1.0.0" (Some Examples.row) (Some Routes.html)
       Routes.fresh_context
     = Throw (SyntaxError "Unexpected token").
Proof.
  split; [reflexivity|].
  exact (proj1 (routes_propagate_parse_errors Examples.render_paragraph
                  (fun _ => Throw (SyntaxError "Unexpected token"))
                  (fun _ => Normal [])
                  "gren-lang/core" "1.0.0" "Sample" Examples.row
                  (Some Routes.html) Routes.fresh_context
                  (SyntaxError "Unexpected token"))
           eq_refl).
Defined.

Lemma sort_from_permutation {A : Type} (comparefn : A -> A -> Completion Z)
      (l : list A) : forall sorted r,
  JS.sort_from comparefn sorted l = Normal r -> Permutation (sorted ++ l) r.
Proof.
  induction l as [|x l IH]; intros sorted r Hr.
  - simpl in Hr. injection Hr as <-. rewrite app_nil_r. apply Permutation_refl.
  - simpl in Hr. apply bind_normal in Hr as [s' [Hs' Hr]].
    apply sort_insert_permutation in Hs'. apply IH in Hr.
    eapply perm_trans; [|exact Hr].
    eapply perm_trans; [apply Permutation_sym, Permutation_middle|].
    apply (Permutation_app_tail l Hs').
Qed.

(** X17.  Whenever the lookup of a package completes, it has answered
    either 404, for a package without stored versions and only then, with
    location and body left as they were, or 303 with the overview link of
    one of the stored versions and the notice of that redirect as the
    body. *)
Theorem package_route_outcomes :
  forall packageName rows ctx ctx',
    Routes.package_route packageName rows ctx = Normal ctx' ->
    rows = [] /\ Routes.status ctx' = 404
    /\ Routes.location ctx' = Routes.location ctx
    /\ Routes.body ctx' = Routes.body ctx
    \/ rows <> [] /\ Routes.status ctx' = 303
       /\ exists row,
           In row rows
           /\ Routes.location ctx'
              = Some (Routes.packageOverviewLink packageName
                        (Routes.version row))
           /\ Routes.body ctx'
              = Some (Routes.redirect_notice
                        (Routes.packageOverviewLink packageName
                           (Routes.version row))).
Proof.
  intros packageName rows ctx ctx' H.
  destruct rows as [|r rows].
  - injection H as <-. left. auto.
  - unfold Routes.package_route in H. cbn [map List.length Nat.eqb] in H.
    apply bind_normal in H as [latest [Hlatest H]].
    unfold Routes.latestVersion in Hlatest.
    apply bind_normal in Hlatest as [sorted [Hsort Hhd]].
    apply sort_from_permutation in Hsort. simpl in Hsort.
    destruct sorted as [|h t].
    { apply Permutation_sym, Permutation_nil in Hsort. discriminate. }
    injection Hhd as <-. injection H as <-.
    right. split; [discriminate|]. split; [reflexivity|].
    assert (Hin : In h (map Routes.version (r :: rows))).
    { apply (Permutation_in _ (Permutation_sym Hsort)). now left. }
    apply in_map_iff in Hin as [row [<- Hrow]].
    exists row. split; [exact Hrow|]. split; reflexivity.
Qed.

Lemma package_route_outcomes_witness :
  Routes.package_route "gren-lang/core" [Routes.mkVersionRow "draft"]
    Routes.fresh_context
  = Normal
      (Routes.mkContext 303
         (Some "/package/gren-lang%2Fcore/version/draft/overview")
         (Some (Routes.redirect_notice
                  "/package/gren-lang%2Fcore/version/draft/overview")))
  /\ exists row,
      In row [Routes.mkVersionRow "draft"]
      /\ Routes.packageOverviewLink "gren-lang/core" (Routes.version row)
         = "/package/gren-lang%2Fcore/version/draft/overview".
Proof.
  split; [reflexivity|].
  destruct (package_route_outcomes "gren-lang/core"
              [Routes.mkVersionRow "draft"] Routes.fresh_context _ eq_refl)
    as [[Hnil _]|[_ [_ [row [Hin [Hloc _]]]]]]; [discriminate Hnil|].
  exists row. split; [exact Hin|].
  vm_compute in Hloc. vm_compute. congruence.
Defined.
